(** * pageant: the shared-memory connection to PuTTY Pageant

    A shallow embedding of [pageant.go]: the [Conn] object, its buffered
    channel of response chunks, the shared file mapping it owns, and the
    operations [Close], [Read], [Write], [PageantWindow], [establishConn],
    [sendMessage] and [NewPageantConn].

    Everything the operating system or the agent decides (the result of
    [FindWindowW], [CreateFileMapping], [MapViewOfFile], [UnmapViewOfFile],
    [CloseHandle], and what the Pageant window does on [SendMessageW]) is
    an explicit argument of the operation that asks for it. *)

From Stdlib Require Import String Ascii ZArith NArith Lia Bool List Sorted.
From Stdlib Require Import Strings.Byte HexadecimalString HexadecimalPos HexadecimalZ.
Import ListNotations.

Local Open Scope Z_scope.

(** ** Constants *)

Definition agentCopydataID : Z := 0x804e50ba.
Definition agentMaxMsglen : Z := 8192.
Definition noError : Z := 0.
Definition wmCopyData : Z := 0x004a.

(** [windows.InvalidHandle] is [^Handle(0)]: every bit set (64-bit Windows). *)
Definition InvalidHandle : Z := Z.ones 64.

(** ** Errors, panics and the outcome of a call *)

(** The [error] values the package returns.  [Errno e] is a
    [syscall.Errno] handed back as it came, [EINVAL] the one that
    [x/sys/windows] puts in place of last error 0; the other
    constructors stand for the messages built with [fmt.Errorf]. *)
Inductive error : Type :=
| EOF                                    (* io.EOF *)
| Errno (e : Z)
| EINVAL                                 (* syscall.EINVAL *)
| ErrNotConnected                        (* "not connected to Pageant" *)
| ErrRequestTooLarge (size max : Z)      (* "size of request message (%d) exceeds max length (%d)" *)
| ErrEmptyMessage                        (* "message to send is empty" *)
| ErrSendFailed (cause : error)          (* "failed to send request to Pageant: %s" *)
| ErrRefused                             (* "request refused by Pageant" *)
| ErrResponseTooLarge (size max : Z)     (* "size of response message (%d) exceeds max length (%d)" *)
| ErrFindWindow (cause : error)          (* "cannot find Pageant window: %s" *)
| ErrWindowNotFound                      (* "cannot find Pageant window, ensure Pageant is running" *)
| ErrCreateSharedFile (cause : error)    (* "failed to create shared file: %s" *)
| ErrMapSharedMem (cause : error)        (* "failed to map file into shared memory: %s" *)
| ErrNotAvailable                        (* "pageant is not available" *)
| ErrConnect (cause : error).            (* "failed to connect to Pageant: %s" *)

Inductive panic : Type :=
| CloseOfClosedChannel
| SendOnClosedChannel.

(** A call returns, panics, parks the calling goroutine (a channel
    operation or [Lock] that cannot proceed), or touches memory that is
    not mapped. *)
Inductive Outcome (A : Type) : Type :=
| Ret (a : A)
| Panics (e : panic)
| Blocks
| Faults.

Arguments Ret {A} a.
Arguments Panics {A} e.
Arguments Blocks {A}.
Arguments Faults {A}.

(** ** Byte slices *)

(** The builtin [copy(dst, src)]: the number of bytes copied and [dst]
    afterwards. *)
Definition copy (dst src : list byte) : nat * list byte :=
  let n := Nat.min (length dst) (length src) in
  (n, firstn n src ++ skipn n dst).

Definition byteZ (b : byte) : Z := Z.of_N (Byte.to_N b).

(** [binary.BigEndian.Uint32]; [None] where Go's bounds check fails. *)
Definition Uint32 (b : list byte) : option Z :=
  match b with
  | b0 :: b1 :: b2 :: b3 :: _ =>
      Some (Z.lor (Z.lor (Z.lor (byteZ b3) (Z.shiftl (byteZ b2) 8))
                         (Z.shiftl (byteZ b1) 16))
                  (Z.shiftl (byteZ b0) 24))
  | _ => None
  end.

(** ** Buffered channels of byte slices *)

Module Chan.

Record t : Type := mk {
  queue : list (list byte);
  closed : bool;
  cap : nat
}.

(** [make(chan []byte, n)] *)
Definition make (n : nat) : t := mk [] false n.

Inductive sent : Type :=
| SendOk (ch : t)
| SendPanic
| SendBlock.

(** [ch <- v] *)
Definition send (ch : t) (v : list byte) : sent :=
  if closed ch then SendPanic
  else if (length (queue ch) <? cap ch)%nat
       then SendOk (mk (queue ch ++ [v]) false (cap ch))
       else SendBlock.

Inductive received : Type :=
| RecvOk (v : list byte) (ch : t)
| RecvClosed
| RecvBlock.

(** [v, ok = <-ch]: buffered items are still delivered after [close]. *)
Definition recv (ch : t) : received :=
  match queue ch with
  | v :: q => RecvOk v (mk q (closed ch) (cap ch))
  | [] => if closed ch then RecvClosed else RecvBlock
  end.

(** [close(ch)]; [None] is the panic on a channel already closed. *)
Definition close (ch : t) : option t :=
  if closed ch then None else Some (mk (queue ch) true (cap ch)).

End Chan.

(** ** The connection and the mapping it owns *)

(** [Conn].  [Mutex] is the embedded [sync.Mutex]: [true] while held. *)
Record Conn : Type := mkConn {
  window : Z;
  sharedFile : Z;
  sharedMem : Z;
  mapName : string;
  data : Chan.t;
  buf : list byte;
  eof : bool;
  Mutex : bool
}.

Definition set_data (c : Conn) (d : Chan.t) : Conn :=
  mkConn (window c) (sharedFile c) (sharedMem c) (mapName c) d (buf c) (eof c) (Mutex c).
Definition set_buf (c : Conn) (b : list byte) : Conn :=
  mkConn (window c) (sharedFile c) (sharedMem c) (mapName c) (data c) b (eof c) (Mutex c).
Definition set_eof (c : Conn) (e : bool) : Conn :=
  mkConn (window c) (sharedFile c) (sharedMem c) (mapName c) (data c) (buf c) e (Mutex c).
Definition set_Mutex (c : Conn) (m : bool) : Conn :=
  mkConn (window c) (sharedFile c) (sharedMem c) (mapName c) (data c) (buf c) (eof c) m.
Definition set_sharedMem (c : Conn) (a : Z) : Conn :=
  mkConn (window c) (sharedFile c) a (mapName c) (data c) (buf c) (eof c) (Mutex c).
Definition set_sharedFile (c : Conn) (h : Z) : Conn :=
  mkConn (window c) h (sharedMem c) (mapName c) (data c) (buf c) (eof c) (Mutex c).

(** [c.Lock()]: [None] when the mutex is held, the caller then waits. *)
Definition Lock (c : Conn) : option Conn :=
  if Mutex c then None else Some (set_Mutex c true).

(** [c.Unlock()] *)
Definition Unlock (c : Conn) : Conn := set_Mutex c false.

(** What the operating system holds for one connection: the bytes of the
    mapped view at [sharedMem] ([None] once the view is unmapped) and
    whether the file-mapping handle is open. *)
Record Shared : Type := mkShared {
  view : option (list byte);
  fileOpen : bool
}.

(** [toSlice(addr, size)]: the first [size] bytes at the mapped address;
    [None] when they are not all inside the mapping. *)
Definition toSlice (r : list byte) (size : nat) : option (list byte) :=
  if (size <=? length r)%nat then Some (firstn size r) else None.

(** [copy(toSlice(c.sharedMem, len(p)), p)] seen from the mapping: the
    slice aliases the region, so the region's first [len(p)] bytes change. *)
Definition store (r p : list byte) : option (list byte) :=
  match toSlice r (length p) with
  | Some dst => Some (snd (copy dst p) ++ skipn (length p) r)
  | None => None
  end.

(** ** sendMessage *)

(** [copyData], the COPYDATASTRUCT; [lpData] is the buffer pointed to. *)
Record copyData : Type := mkCopyData {
  dwData : Z;
  cbData : Z;
  lpData : list byte
}.

(** [SendMessageW] as the Pageant window answers it: from the window, the
    message, wParam, the structure behind lParam and the bytes of the
    mapping, to the reply code, the thread's last error and the bytes of
    the mapping afterwards. *)
Definition Agent : Type :=
  Z -> Z -> Z -> copyData -> list byte -> Z * Z * list byte.

Definition sendMessage (ag : Agent) (c : Conn) (payload r : list byte)
  : Z * option error * list byte :=
  let cds := mkCopyData agentCopydataID (Z.of_nat (length payload)) payload in
  let '(result, err, r') := ag (window c) wmCopyData 0 cds r in
  if err =? noError then (result, None, r') else (result, Some (Errno err), r').

(** ** Close *)

(** [windows.UnmapViewOfFile] and [windows.CloseHandle], given what the
    system call answered. *)
Definition UnmapViewOfFile (answer : option Z) (w : Shared) : Shared :=
  match answer with
  | None => mkShared None (fileOpen w)
  | Some _ => w
  end.

Definition CloseHandle (answer : option Z) (w : Shared) : Shared :=
  match answer with
  | None => mkShared (view w) false
  | Some _ => w
  end.

(** Lines 120-127: the early return ([Ret None]), or the connection
    with the mutex taken and [c.data] closed. *)
Definition Close_enter (c : Conn) : Outcome (option Conn) :=
  if sharedMem c =? 0 then Ret None
  else
    match Lock c with
    | None => Blocks
    | Some c1 =>
        (* defer c.Unlock() *)
        match Chan.close (data c1) with
        | None => Panics CloseOfClosedChannel
        | Some ch => Ret (Some (set_data c1 ch))
        end
    end.

(** Lines 129-138, and the deferred [Unlock]. *)
Definition Close_release (errUnmap errClose : option Z) (c2 : Conn) (w : Shared)
  : option error * Conn * Shared :=
  let w1 := UnmapViewOfFile errUnmap w in
  let w2 := CloseHandle errClose w1 in
  match errUnmap, errClose with
  | Some e, _ => (Some (Errno e), Unlock c2, w2)
  | None, Some e => (Some (Errno e), Unlock c2, w2)
  | None, None =>
      (None, Unlock (set_sharedFile (set_sharedMem c2 0) InvalidHandle), w2)
  end.

Definition Close (errUnmap errClose : option Z) (c : Conn) (w : Shared)
  : Outcome (option error * Conn * Shared) :=
  match Close_enter c with
  | Ret None => Ret (None, c, w)
  | Ret (Some c2) => Ret (Close_release errUnmap errClose c2 w)
  | Panics e => Panics e
  | Blocks => Blocks
  | Faults => Faults
  end.

(** ** Read *)

(** Lines 159-161: [n = copy(p, c.buf); c.buf = c.buf[n:]]. *)
Definition Read_copy (c : Conn) (p : list byte)
  : Outcome (nat * option error * list byte * Conn) :=
  let '(n, p') := copy p (buf c) in
  Ret (n, None, p', set_buf c (skipn n (buf c))).

(** Lines 151-157: the receive on [c.data] and what follows it. *)
Definition Read_recv (c : Conn) (p : list byte)
  : Outcome (nat * option error * list byte * Conn) :=
  match Chan.recv (data c) with
  | Chan.RecvBlock => Blocks
  | Chan.RecvClosed => Ret (O, Some EOF, p, set_eof (set_buf c []) true)
  | Chan.RecvOk v ch => Read_copy (set_buf (set_data c ch) v) p
  end.

(** [Read(p)]: the count, the error, [p] afterwards and the connection. *)
Definition Read (c : Conn) (p : list byte)
  : Outcome (nat * option error * list byte * Conn) :=
  if eof c then Ret (O, Some EOF, p, c)
  else if sharedMem c =? 0 then Ret (O, Some ErrNotConnected, p, c)
  else if (length (buf c) =? 0)%nat then Read_recv c p
  else Read_copy c p.

(** ** Write *)

(** [data := make([]byte, len(c.mapName)+1); copy(data, c.mapName)] *)
Definition namePayload (name : string) : list byte :=
  let bytes := list_byte_of_string name in
  snd (copy (repeat x00 (length bytes + 1)) bytes).

Definition Write (ag : Agent) (c : Conn) (w : Shared) (p : list byte)
  : Outcome (nat * option error * Conn * Shared) :=
  if Z.of_nat (length p) >? agentMaxMsglen then
    Ret (O, Some (ErrRequestTooLarge (Z.of_nat (length p)) agentMaxMsglen), c, w)
  else if (length p =? 0)%nat then
    Ret (O, Some ErrEmptyMessage, c, w)
  else
    match Lock c with
    | None => Blocks
    | Some c1 =>
        (* defer c.Unlock() *)
        if sharedMem c1 =? 0 then Ret (O, Some ErrNotConnected, Unlock c1, w)
        else
          match view w with
          | None => Faults
          | Some r =>
              match store r p with
              | None => Faults
              | Some r1 =>
                  let '(result, err, r2) := sendMessage ag c1 (namePayload (mapName c1)) r1 in
                  let w2 := mkShared (Some r2) (fileOpen w) in
                  if result =? 0 then
                    match err with
                    | Some e => Ret (O, Some (ErrSendFailed e), Unlock c1, w2)
                    | None => Ret (O, Some ErrRefused, Unlock c1, w2)
                    end
                  else
                    match option_map Uint32 (toSlice r2 4) with
                    | Some (Some messageSize) =>
                        if messageSize >? agentMaxMsglen - 4 then
                          Ret (O,
                               Some (ErrResponseTooLarge ((messageSize + 4) mod 2 ^ 32)
                                                         agentMaxMsglen),
                               Unlock c1, w2)
                        else
                          match toSlice r2 (4 + Z.to_nat messageSize) with
                          | None => Faults
                          | Some src =>
                              let chunk :=
                                snd (copy (repeat x00 (4 + Z.to_nat messageSize)) src) in
                              match Chan.send (data c1) chunk with
                              | Chan.SendPanic => Panics SendOnClosedChannel
                              | Chan.SendBlock => Blocks
                              | Chan.SendOk ch =>
                                  Ret (length p, None, Unlock (set_data c1 ch), w2)
                              end
                          end
                    | _ => Faults
                    end
              end
          end
    end.

(** ** Connecting *)

(** [PageantWindow()], given what [findWindow.Call] answered: the window
    and the thread's last error. *)
Definition PageantWindow (found : Z * Z) : Z * option error :=
  let '(win, err) := found in
  if win =? 0 then
    if negb (err =? noError) then (win, Some (ErrFindWindow (Errno err)))
    else (win, Some ErrWindowNotFound)
  else (win, None).

Definition PageantAvailable (found : Z * Z) : bool :=
  match snd (PageantWindow found) with
  | None => true
  | Some _ => false
  end.

(** [atomic.Uint64.Add]: the new value, modulo 2^64. *)
Definition Uint64_Add (v delta : Z) : Z := (v + delta) mod 2 ^ 64.

(** The verb [%x] of [fmt] on an integer: lower-case hexadecimal, no
    leading zeros, a minus sign in front of a negative number. *)
Definition fmt_x (z : Z) : string := NilZero.string_of_int (Z.to_hex_int z).

(** [fmt.Sprintf("PageantRequest_%x_%x", pid, id)] *)
Definition regionName (pid id : Z) : string :=
  ("PageantRequest_" ++ fmt_x pid ++ "_" ++ fmt_x id)%string.

(** [errnoErr] of [x/sys/windows]: the last error as an [error], with
    [syscall.EINVAL] standing in for last error 0. *)
Definition errnoErr (e : Z) : error :=
  if e =? 0 then EINVAL else Errno e.

(** [windows.MapViewOfFile]: the wrapper reports [errnoErr] of the last
    error when the system call returned address 0. *)
Definition MapViewOfFile (raw : Z * Z) : Z * option error :=
  let '(addr, e1) := raw in
  if addr =? 0 then (addr, Some (errnoErr e1)) else (addr, None).

(** The answers of the operating system to one [NewPageantConn]:
    [FindWindowW] twice (from [PageantAvailable] and from
    [establishConn]), [windows.CreateFileMapping], and the raw result of
    the [MapViewOfFile] system call. *)
Record Sys : Type := mkSys {
  findWindow1 : Z * Z;
  findWindow2 : Z * Z;
  createFileMapping : Z * option Z;
  mapViewOfFile : Z * Z
}.

(** The process: its id and the package variable [connUniqueID]. *)
Record Proc : Type := mkProc {
  pid : Z;
  connUniqueID : Z
}.

(** A mapping just created: page-file backed, so filled with zeros. *)
Definition freshView : list byte := repeat x00 (Z.to_nat agentMaxMsglen).

(** [establishConn()]: the error, the connection, the process and the
    operating-system side of the connection afterwards. *)
Definition establishConn (os : Sys) (c : Conn) (pr : Proc) (w : Shared)
  : option error * Conn * Proc * Shared :=
  match PageantWindow (findWindow2 os) with
  | (_, Some err) => (Some err, c, pr, w)
  | (win, None) =>
      let id := Uint64_Add (connUniqueID pr) 1 in
      let pr1 := mkProc (pid pr) id in
      let name := regionName (pid pr) id in
      match createFileMapping os with
      | (file, Some err) =>
          (* a handle that comes with an error (ERROR_ALREADY_EXISTS) is
             open, and dropped here *)
          (Some (ErrCreateSharedFile (Errno err)), c, pr1,
           mkShared (view w) (fileOpen w || negb (file =? 0)))
      | (file, None) =>
          let w1 := mkShared (view w) true in
          match MapViewOfFile (mapViewOfFile os) with
          | (_, Some err) => (Some (ErrMapSharedMem err), c, pr1, w1)
          | (mem, None) =>
              (None,
               mkConn win file mem name (data c) (buf c) (eof c) (Mutex c),
               pr1,
               mkShared (Some freshView) true)
          end
      end
  end.

(** [&Conn{data: make(chan []byte, 10)}] *)
Definition newConn : Conn :=
  mkConn 0 0 0 EmptyString (Chan.make 10) [] false false.

Definition noShared : Shared := mkShared None false.

(** [NewPageantConn()] *)
Definition NewPageantConn (os : Sys) (pr : Proc)
  : option (Conn * Shared) * option error * Proc :=
  if negb (PageantAvailable (findWindow1 os)) then (None, Some ErrNotAvailable, pr)
  else
    match establishConn os newConn pr noShared with
    | (Some err, _, pr1, _) => (None, Some (ErrConnect err), pr1)
    | (None, c, pr1, w) => (Some (c, w), None, pr1)
    end.

(** The connections a process obtains from successive calls of
    [NewPageantConn], oldest first; the calls are atomic with respect to
    the counter, which is all they share. *)
Fixpoint connect_all (calls : list Sys) (pr : Proc) : list Conn :=
  match calls with
  | [] => []
  | os :: rest =>
      match NewPageantConn os pr with
      | (Some (c, _), _, pr1) => c :: connect_all rest pr1
      | (None, _, pr1) => connect_all rest pr1
      end
  end.

(** ** Sequences of calls *)

(** The framed reply at the start of the mapping: the 4-byte length
    prefix and the payload it announces. *)
Definition reply_in (w : Shared) : list byte :=
  match view w with
  | Some r =>
      match Uint32 r with
      | Some L => firstn (4 + Z.to_nat L) r
      | None => []
      end
  | None => []
  end.

(** Successive [Write]s, each answered by its own agent behaviour: the
    reply found in the mapping when each call returned, in call order,
    and the state at the end; [None] as soon as a call does not return
    [nil]. *)
Fixpoint Writes (reqs : list (Agent * list byte)) (c : Conn) (w : Shared)
  : option (list (list byte) * Conn * Shared) :=
  match reqs with
  | [] => Some ([], c, w)
  | (ag, p) :: rest =>
      match Write ag c w p with
      | Ret (_, None, c1, w1) =>
          match Writes rest c1 w1 with
          | Some (replies, c2, w2) => Some (reply_in w1 :: replies, c2, w2)
          | None => None
          end
      | _ => None
      end
  end.

(** Successive [Read]s into the given buffers: what each call delivered
    ([p[:n]]) and the connection at the end; [None] as soon as a call
    does not return [nil]. *)
Fixpoint Reads (bufs : list (list byte)) (c : Conn)
  : option (list (list byte) * Conn) :=
  match bufs with
  | [] => Some ([], c)
  | p :: rest =>
      match Read c p with
      | Ret (n, None, p1, c1) =>
          match Reads rest c1 with
          | Some (got, c2) => Some (firstn n p1 :: got, c2)
          | None => None
          end
      | _ => None
      end
  end.

(** The caller's buffers [bufs] read one chunk to its end and no
    further: the chunk is not exhausted before the last buffer, and the
    last buffer has room for what is left. *)
Definition total (bufs : list (list byte)) : nat :=
  list_sum (map (@length byte) bufs).

Definition plan_ok (chunk : list byte) (bufs : list (list byte)) : Prop :=
  (total (removelast bufs) < length chunk <= total bufs)%nat.

(** [Reads] plan after plan, joining what the calls of each plan
    delivered. *)
Fixpoint drain (plans : list (list (list byte))) (c : Conn)
  : option (list (list byte) * Conn) :=
  match plans with
  | [] => Some ([], c)
  | bufs :: rest =>
      match Reads bufs c with
      | Some (got, c1) =>
          match drain rest c1 with
          | Some (msgs, c2) => Some (concat got :: msgs, c2)
          | None => None
          end
      | None => None
      end
  end.

(** Any of the three operations, with the answers it will get. *)
Inductive Call : Type :=
| CallRead (p : list byte)
| CallWrite (ag : Agent) (p : list byte)
| CallClose (errUnmap errClose : option Z).

(** The error a call returns and the state it leaves; [None] when it
    does not return. *)
Definition call (k : Call) (c : Conn) (w : Shared)
  : option (option error * Conn * Shared) :=
  match k with
  | CallRead p =>
      match Read c p with
      | Ret (_, err, _, c1) => Some (err, c1, w)
      | _ => None
      end
  | CallWrite ag p =>
      match Write ag c w p with
      | Ret (_, err, c1, w1) => Some (err, c1, w1)
      | _ => None
      end
  | CallClose eu ec =>
      match Close eu ec c w with
      | Ret r => Some r
      | _ => None
      end
  end.

Fixpoint calls (ks : list Call) (c : Conn) (w : Shared) : option (Conn * Shared) :=
  match ks with
  | [] => Some (c, w)
  | k :: rest =>
      match call k c w with
      | Some (_, c1, w1) => calls rest c1 w1
      | None => None
      end
  end.




(** The chunk a [Read] takes its bytes from: what is left in [c.buf],
    or else the chunk at the head of the channel. *)
Definition current (c : Conn) : list byte :=
  match buf c with
  | [] => hd [] (Chan.queue (data c))
  | _ :: _ => buf c
  end.

Definition pending (c : Conn) : list (list byte) :=
  match buf c with
  | [] => tl (Chan.queue (data c))
  | _ :: _ => Chan.queue (data c)
  end.

(** The end-of-stream flag is only ever set on a closed channel of a
    connection whose [sharedMem] is still set. *)
Definition flagged_closed (c : Conn) : Prop :=
  eof c = true -> Chan.closed (data c) = true /\ sharedMem c <> 0.

(** ** NewConn *)

(** The constants of [NewConn]: the raw string [`\\.\pipe\`] and the
    name of the pipe of OpenSSH's agent. *)
Definition PIPE : string := "\\.\pipe\".
Definition sshAuthPipe : string := "openssh-ssh-agent".

(** [strings.HasPrefix(s, prefix)] *)
Definition HasPrefix (s pre : string) : bool := String.prefix pre s.

(** Lines 71-77: the pipe to dial, from what [os.Getenv("SSH_AUTH_SOCK")]
    returned (the empty string when the variable is not set). *)
Definition sockPath (env : string) : string :=
  let sock := if String.eqb env EmptyString then sshAuthPipe else env in
  if negb (HasPrefix sock PIPE) then (PIPE ++ sock)%string else sock.

(** [NewConn()] on Windows, given the dialer [winio.DialPipe], what
    [FindWindowW] answers to the first lookup, the answers to
    [NewPageantConn] and the environment variable: the result of
    [NewPageantConn] on the left, of the dialer on the right. *)
Definition NewConn {D : Type} (DialPipe : string -> D) (found : Z * Z) (os : Sys)
           (env : string) (pr : Proc)
  : (option (Conn * Shared) * option error + D) * Proc :=
  match PageantWindow found with
  | (_, None) =>
      let '(res, err, pr1) := NewPageantConn os pr in (inl (res, err), pr1)
  | (_, Some _) => (inr (DialPipe (sockPath env)), pr)
  end.

(** ** Invariants of the pending replies *)

(** A framed reply: a 4-byte big-endian prefix [L <= 8192 - 4] followed
    by exactly [L] bytes. *)
Definition framed (chunk : list byte) : Prop :=
  exists L : Z,
    Uint32 chunk = Some L
    /\ L <= agentMaxMsglen - 4
    /\ length chunk = (4 + Z.to_nat L)%nat.

(** Every chunk on the channel is a framed reply, [c.buf] is the tail
    of one, and the channel holds no more chunks than its capacity. *)
Definition well_queued (c : Conn) : Prop :=
  Forall framed (Chan.queue (data c))
  /\ (buf c = [] \/ exists pre : list byte, framed (pre ++ buf c))
  /\ (length (Chan.queue (data c)) <= Chan.cap (data c))%nat.

(** The characters [%x] can print. *)
Definition hexChars : list ascii := list_ascii_of_string "-0123456789abcdef".

(** ** A concrete run, used to instantiate the results below *)

Module Demo.

Definition bytes (s : string) : list byte := list_byte_of_string s.

(** The window is found, the mapping is created and mapped. *)
Definition sys : Sys := mkSys (0x30a2e, 0) (0x30a2e, 0) (0x1f4, None) (0x26a0000, 0).

Definition proc : Proc := mkProc 4242 0.

Definition conn : Conn :=
  mkConn 0x30a2e 0x1f4 0x26a0000 "PageantRequest_1092_1" (Chan.make 10) [] false false.

Definition shared : Shared := mkShared (Some freshView) true.

(** An agent that answers with the given reply code and last error and
    leaves [resp] at the start of the mapping. *)
Definition agent (result err : Z) (resp : list byte) : Agent :=
  fun _ _ _ _ r => (result, err, resp ++ skipn (length resp) r).

Definition pong : list byte := [x00; x00; x00; x04] ++ bytes "pong".
Definition pang : list byte := [x00; x00; x00; x04] ++ bytes "pang".

(** A reply that declares 8189 bytes of payload. *)
Definition huge : list byte := [x00; x00; x1f; xfd].

Definition ping : list byte := bytes "ping".

(** One byte more than a request may have. *)
Definition oversize : list byte := repeat x01 (Z.to_nat (agentMaxMsglen + 1)).

(** The connection after one request answered with [pong]. *)
Definition answered : Conn * Shared :=
  match Write (agent 1 0 pong) conn shared ping with
  | Ret (_, _, c, w) => (c, w)
  | _ => (conn, shared)
  end.

(** The connection after a second request, answered with [pang]. *)
Definition answered_twice : Conn * Shared :=
  match Write (agent 1 0 pang) (fst answered) (snd answered) ping with
  | Ret (_, _, c, w) => (c, w)
  | _ => answered
  end.

(** The connection after the first request, then closed, both system
    calls succeeding. *)
Definition closed : Conn * Shared :=
  match Close None None (fst answered) (snd answered) with
  | Ret (_, c, w) => (c, w)
  | _ => answered
  end.



(** [ERROR_INVALID_ADDRESS] *)
Definition invalidAddress : Z := 487.

(** [ERROR_INVALID_HANDLE] *)
Definition invalidHandle : Z := 6.

(** The connection after ten requests, each answered with [pong]. *)
Definition full : Conn * Shared :=
  match Writes (repeat (agent 1 0 pong, ping) 10) conn shared with
  | Some (_, c, w) => (c, w)
  | None => (conn, shared)
  end.

(** The window is found and the mapping created, but not mapped. *)
Definition sysUnmapped : Sys :=
  mkSys (0x30a2e, 0) (0x30a2e, 0) (0x1f4, None) (0, 8).

(** A reply whose prefix declares 2^32 - 1 bytes. *)
Definition wrapping : list byte := [xff; xff; xff; xff].

End Demo.

(** * Properties *)

(** ** Helpers *)

Lemma Unlock_Lock (c c1 : Conn) : Lock c = Some c1 -> Unlock c1 = c.
Proof.
  unfold Lock, Unlock, set_Mutex. destruct c as [wi sf sm mn d b e m]; simpl.
  destruct m; intros H; inversion H; reflexivity.
Qed.

Lemma Lock_free (c : Conn) : Mutex c = false -> Lock c = Some (set_Mutex c true).
Proof. unfold Lock. intros ->. reflexivity. Qed.

Lemma Unlock_set_Mutex (c : Conn) : Mutex c = false -> Unlock (set_Mutex c true) = c.
Proof. intros H. apply Unlock_Lock. apply Lock_free, H. Qed.

Lemma sendMessage_Mutex (ag : Agent) (c : Conn) (m : bool) (payload r : list byte) :
  sendMessage ag (set_Mutex c m) payload r = sendMessage ag c payload r.
Proof. reflexivity. Qed.

Lemma Uint32_toSlice (r : list byte) (L : Z) :
  Uint32 r = Some L -> option_map Uint32 (toSlice r 4) = Some (Some L).
Proof.
  destruct r as [|b0 [|b1 [|b2 [|b3 r]]]]; simpl; try discriminate.
  intros H. exact (f_equal Some H).
Qed.

Lemma Demo_connects :
  NewPageantConn Demo.sys Demo.proc
  = (Some (Demo.conn, Demo.shared), None, mkProc 4242 1).
Proof. reflexivity. Qed.

Section WriteErrors.

Variable ag : Agent.
Variables (c : Conn) (w : Shared) (p : list byte).

Lemma Write_empty :
  length p = 0%nat -> Write ag c w p = Ret (0%nat, Some ErrEmptyMessage, c, w).
Proof.
  intros H. unfold Write. rewrite H. reflexivity.
Qed.

Lemma Write_oversize :
  Z.of_nat (length p) > agentMaxMsglen ->
  Write ag c w p
  = Ret (0%nat, Some (ErrRequestTooLarge (Z.of_nat (length p)) agentMaxMsglen), c, w).
Proof.
  intros H. unfold Write.
  destruct (Z.gtb_spec (Z.of_nat (length p)) agentMaxMsglen) as [_|H']; [reflexivity | lia].
Qed.

(** Past the two size checks. *)
Lemma Write_sized :
  0 < Z.of_nat (length p) <= agentMaxMsglen ->
  Write ag c w p =
  match Lock c with
  | None => Blocks
  | Some c1 =>
      if sharedMem c1 =? 0 then Ret (0%nat, Some ErrNotConnected, Unlock c1, w)
      else
        match view w with
        | None => Faults
        | Some r =>
            match store r p with
            | None => Faults
            | Some r1 =>
                let '(result, err, r2) := sendMessage ag c1 (namePayload (mapName c1)) r1 in
                let w2 := mkShared (Some r2) (fileOpen w) in
                if result =? 0 then
                  match err with
                  | Some e => Ret (0%nat, Some (ErrSendFailed e), Unlock c1, w2)
                  | None => Ret (0%nat, Some ErrRefused, Unlock c1, w2)
                  end
                else
                  match option_map Uint32 (toSlice r2 4) with
                  | Some (Some messageSize) =>
                      if messageSize >? agentMaxMsglen - 4 then
                        Ret (0%nat,
                             Some (ErrResponseTooLarge ((messageSize + 4) mod 2 ^ 32)
                                                       agentMaxMsglen),
                             Unlock c1, w2)
                      else
                        match toSlice r2 (4 + Z.to_nat messageSize) with
                        | None => Faults
                        | Some src =>
                            let chunk :=
                              snd (copy (repeat x00 (4 + Z.to_nat messageSize)) src) in
                            match Chan.send (data c1) chunk with
                            | Chan.SendPanic => Panics SendOnClosedChannel
                            | Chan.SendBlock => Blocks
                            | Chan.SendOk ch =>
                                Ret (length p, None, Unlock (set_data c1 ch), w2)
                            end
                        end
                  | _ => Faults
                  end
            end
        end
  end.
Proof.
  intros [Hlo Hhi]. unfold Write.
  destruct (Z.gtb_spec (Z.of_nat (length p)) agentMaxMsglen) as [H'|_]; [lia|].
  destruct (Nat.eqb_spec (length p) 0) as [H'|_]; [lia|].
  reflexivity.
Qed.

(** A [Write] that got as far as the connection check had a size
    within bounds. *)
Lemma Write_not_connected_sized (n : nat) (c' : Conn) (w' : Shared) :
  Write ag c w p = Ret (n, Some ErrNotConnected, c', w') ->
  0 < Z.of_nat (length p) <= agentMaxMsglen.
Proof.
  unfold Write.
  destruct (Z.gtb_spec (Z.of_nat (length p)) agentMaxMsglen) as [_|Hhi]; [discriminate|].
  destruct (Nat.eqb_spec (length p) 0) as [_|Hlo]; [discriminate|].
  intros _. lia.
Qed.

End WriteErrors.

(** ** Size errors *)

(** C2. A [Write] of no bytes fails with the empty-message error and a
    [Write] of more than 8192 bytes with the oversize-request error,
    whatever the state, and neither touches the connection or the
    mapping.  On a connected, unlocked connection, a request of valid
    size answered with a nonzero reply code and a length prefix
    [L > 8192 - 4] fails with the oversize-response error; the count is
    0 and the connection is as before, so nothing was enqueued. *)
Theorem Write_size_errors (ag : Agent) (c : Conn) (w : Shared) (p : list byte) :
  (length p = 0%nat ->
   Write ag c w p = Ret (0%nat, Some ErrEmptyMessage, c, w))
  /\ (Z.of_nat (length p) > agentMaxMsglen ->
      Write ag c w p
      = Ret (0%nat, Some (ErrRequestTooLarge (Z.of_nat (length p)) agentMaxMsglen), c, w))
  /\ (forall (r r1 r2 : list byte) (result L : Z) (err : option error),
        0 < Z.of_nat (length p) <= agentMaxMsglen ->
        Mutex c = false ->
        sharedMem c <> 0 ->
        view w = Some r ->
        store r p = Some r1 ->
        sendMessage ag c (namePayload (mapName c)) r1 = (result, err, r2) ->
        result <> 0 ->
        Uint32 r2 = Some L ->
        L > agentMaxMsglen - 4 ->
        Write ag c w p
        = Ret (0%nat,
               Some (ErrResponseTooLarge ((L + 4) mod 2 ^ 32) agentMaxMsglen),
               c, mkShared (Some r2) (fileOpen w))).
Proof.
  split; [apply Write_empty | split; [apply Write_oversize |]].
  intros r r1 r2 result L err Hsize Hmu Hmem Hview Hstore Hsend Hres HL Hbig.
  rewrite Write_sized by assumption.
  rewrite (Lock_free c Hmu).
  change (sharedMem (set_Mutex c true)) with (sharedMem c).
  change (mapName (set_Mutex c true)) with (mapName c).
  destruct (Z.eqb_spec (sharedMem c) 0) as [E|_]; [contradiction|].
  rewrite Hview, Hstore, sendMessage_Mutex, Hsend.
  destruct (Z.eqb_spec result 0) as [E|_]; [contradiction|].
  rewrite (Uint32_toSlice r2 L HL).
  destruct (Z.gtb_spec L (agentMaxMsglen - 4)) as [_|E]; [|lia].
  rewrite (Unlock_set_Mutex c Hmu). reflexivity.
Qed.

Lemma Write_size_errors_witness :
  Write (Demo.agent 1 0 Demo.huge) Demo.conn Demo.shared []
  = Ret (0%nat, Some ErrEmptyMessage, Demo.conn, Demo.shared)
  /\ Write (Demo.agent 1 0 Demo.huge) Demo.conn Demo.shared Demo.oversize
     = Ret (0%nat, Some (ErrRequestTooLarge 8193 8192), Demo.conn, Demo.shared)
  /\ Write (Demo.agent 1 0 Demo.huge) Demo.conn Demo.shared Demo.ping
     = Ret (0%nat, Some (ErrResponseTooLarge 8193 8192), Demo.conn,
            mkShared (Some (Demo.huge ++ skipn 4 freshView)) true).
Proof.
  pose proof (Write_size_errors (Demo.agent 1 0 Demo.huge) Demo.conn Demo.shared []) as H0.
  pose proof (Write_size_errors (Demo.agent 1 0 Demo.huge) Demo.conn Demo.shared
                                Demo.oversize) as H1.
  pose proof (Write_size_errors (Demo.agent 1 0 Demo.huge) Demo.conn Demo.shared
                                Demo.ping) as H2.
  split; [|split].
  - apply (proj1 H0). reflexivity.
  - apply (proj1 (proj2 H1)). vm_compute. reflexivity.
  - apply (proj2 (proj2 H2) freshView (Demo.ping ++ skipn 4 freshView)
                 (Demo.huge ++ skipn 4 freshView) 1 8189 None).
    + vm_compute. split; [reflexivity | discriminate].
    + reflexivity.
    + discriminate.
    + reflexivity.
    + vm_compute. reflexivity.
    + vm_compute. reflexivity.
    + discriminate.
    + reflexivity.
    + reflexivity.
Defined.

(** C10. The size of [p] is checked before the connection is looked
    at: an empty or oversize [p] gets its size error in every state of
    the connection (closed, never established, mutex held), and a
    [Write] that returns the not-connected error had
    [0 < len(p) <= 8192]. *)
Theorem Write_size_before_connection (ag : Agent) (c : Conn) (w : Shared) (p : list byte) :
  (length p = 0%nat ->
   Write ag c w p = Ret (0%nat, Some ErrEmptyMessage, c, w))
  /\ (Z.of_nat (length p) > agentMaxMsglen ->
      Write ag c w p
      = Ret (0%nat, Some (ErrRequestTooLarge (Z.of_nat (length p)) agentMaxMsglen), c, w))
  /\ (forall (n : nat) (c' : Conn) (w' : Shared),
        Write ag c w p = Ret (n, Some ErrNotConnected, c', w') ->
        0 < Z.of_nat (length p) <= agentMaxMsglen).
Proof.
  split; [apply Write_empty | split; [apply Write_oversize |]].
  intros n c' w'. apply Write_not_connected_sized.
Qed.

Lemma Write_size_before_connection_witness :
  Write (Demo.agent 1 0 Demo.pong) newConn noShared []
  = Ret (0%nat, Some ErrEmptyMessage, newConn, noShared)
  /\ Write (Demo.agent 1 0 Demo.pong) newConn noShared Demo.oversize
     = Ret (0%nat, Some (ErrRequestTooLarge 8193 8192), newConn, noShared)
  /\ 0 < Z.of_nat (length Demo.ping) <= agentMaxMsglen.
Proof.
  split; [|split].
  - apply (proj1 (Write_size_before_connection
                    (Demo.agent 1 0 Demo.pong) newConn noShared [])).
    reflexivity.
  - apply (proj1 (proj2 (Write_size_before_connection
                           (Demo.agent 1 0 Demo.pong) newConn noShared Demo.oversize))).
    vm_compute. reflexivity.
  - apply (proj2 (proj2 (Write_size_before_connection
                           (Demo.agent 1 0 Demo.pong) newConn noShared Demo.ping))
                 0%nat newConn noShared).
    reflexivity.
Defined.

(** ** Refusal and transport failure *)

(** The claim C4 as written does not hold: an error reported by
    [sendMessage] together with a nonzero reply code is not looked at,
    and the [Write] goes on to read the reply. *)
Lemma Write_error_with_reply_ignored :
  ~ (forall (ag : Agent) (c : Conn) (w : Shared) (p r r1 r2 : list byte)
            (result : Z) (e : error),
        0 < Z.of_nat (length p) <= agentMaxMsglen ->
        Mutex c = false ->
        sharedMem c <> 0 ->
        view w = Some r ->
        store r p = Some r1 ->
        sendMessage ag c (namePayload (mapName c)) r1 = (result, Some e, r2) ->
        exists (c' : Conn) (w' : Shared),
          Write ag c w p = Ret (0%nat, Some (ErrSendFailed e), c', w')).
Proof.
  intros H.
  destruct (H (Demo.agent 1 5 Demo.pong) Demo.conn Demo.shared Demo.ping
              freshView (Demo.ping ++ skipn 4 freshView)
              (Demo.pong ++ skipn 8 freshView) 1 (Errno 5))
    as (c' & w' & E).
  - vm_compute. split; [reflexivity | discriminate].
  - reflexivity.
  - discriminate.
  - reflexivity.
  - vm_compute. reflexivity.
  - vm_compute. reflexivity.
  - vm_compute in E. discriminate E.
Qed.

(** C4, amended. When [sendMessage] returns the reply code 0, the
    [Write] fails: with the request-refused error when no error came
    with it, with the failed-to-send error wrapping the cause when one
    did.  The two errors differ, the count is 0 and the connection is
    as before, so nothing was enqueued. *)
Theorem Write_refused_or_failed
  (ag : Agent) (c : Conn) (w : Shared) (p r r1 r2 : list byte) (err : option error) :
  0 < Z.of_nat (length p) <= agentMaxMsglen ->
  Mutex c = false ->
  sharedMem c <> 0 ->
  view w = Some r ->
  store r p = Some r1 ->
  sendMessage ag c (namePayload (mapName c)) r1 = (0, err, r2) ->
  Write ag c w p
  = Ret (0%nat,
         Some (match err with
               | None => ErrRefused
               | Some cause => ErrSendFailed cause
               end),
         c, mkShared (Some r2) (fileOpen w))
  /\ (forall cause : error, ErrRefused <> ErrSendFailed cause).
Proof.
  intros Hsize Hmu Hmem Hview Hstore Hsend. split; [|discriminate].
  rewrite Write_sized by assumption.
  rewrite (Lock_free c Hmu).
  change (sharedMem (set_Mutex c true)) with (sharedMem c).
  change (mapName (set_Mutex c true)) with (mapName c).
  destruct (Z.eqb_spec (sharedMem c) 0) as [E|_]; [contradiction|].
  rewrite Hview, Hstore, sendMessage_Mutex, Hsend.
  rewrite (Unlock_set_Mutex c Hmu).
  destruct err; reflexivity.
Qed.

Lemma Write_refused_or_failed_witness :
  (Write (Demo.agent 0 0 []) Demo.conn Demo.shared Demo.ping
   = Ret (0%nat, Some ErrRefused, Demo.conn,
          mkShared (Some (Demo.ping ++ skipn 4 freshView)) true)
   /\ (forall cause : error, ErrRefused <> ErrSendFailed cause))
  /\ (Write (Demo.agent 0 5 []) Demo.conn Demo.shared Demo.ping
      = Ret (0%nat, Some (ErrSendFailed (Errno 5)), Demo.conn,
             mkShared (Some (Demo.ping ++ skipn 4 freshView)) true)
      /\ (forall cause : error, ErrRefused <> ErrSendFailed cause)).
Proof.
  split.
  - apply (Write_refused_or_failed (Demo.agent 0 0 []) Demo.conn Demo.shared Demo.ping
             freshView (Demo.ping ++ skipn 4 freshView)
             (Demo.ping ++ skipn 4 freshView) None).
    + vm_compute. split; [reflexivity | discriminate].
    + reflexivity.
    + discriminate.
    + reflexivity.
    + vm_compute. reflexivity.
    + vm_compute. reflexivity.
  - apply (Write_refused_or_failed (Demo.agent 0 5 []) Demo.conn Demo.shared Demo.ping
             freshView (Demo.ping ++ skipn 4 freshView)
             (Demo.ping ++ skipn 4 freshView) (Some (Errno 5))).
    + vm_compute. split; [reflexivity | discriminate].
    + reflexivity.
    + discriminate.
    + reflexivity.
    + vm_compute. reflexivity.
    + vm_compute. reflexivity.
Defined.

(** ** After Close *)

Section Disconnected.

(** A connection whose [sharedMem] is 0 and whose mutex is free. *)
Variable c : Conn.
Hypothesis Hmem : sharedMem c = 0.
Hypothesis Hmu : Mutex c = false.






End Disconnected.








(** ** Close after a Close that failed *)

(** C8. The code does not do what the claim asks: when either system
    call of a [Close] fails, the [Close] returns that error with
    [c.data] already closed and [sharedMem] still set, and every later
    [Close] panics at [close(c.data)] before it releases anything. *)
Theorem Close_after_failed_Close_panics
  (eu ec : option Z) (c : Conn) (w : Shared) :
  sharedMem c <> 0 ->
  Mutex c = false ->
  Chan.closed (data c) = false ->
  eu <> None \/ ec <> None ->
  exists (e : Z) (c1 : Conn) (w1 : Shared),
    Close eu ec c w = Ret (Some (Errno e), c1, w1)
    /\ sharedMem c1 = sharedMem c
    /\ forall eu' ec' : option Z,
         Close eu' ec' c1 w1 = Panics CloseOfClosedChannel.
Proof.
  intros Hmem Hmu Hopen Hfail.
  assert (Hpanic : forall (eu' ec' : option Z) (w1 : Shared),
             Close eu' ec' (Unlock (set_data (set_Mutex c true)
                                      (Chan.mk (Chan.queue (data c)) true
                                               (Chan.cap (data c))))) w1
             = Panics CloseOfClosedChannel).
  { intros eu' ec' w1. unfold Close, Close_enter. simpl.
    destruct (Z.eqb_spec (sharedMem c) 0) as [E|_]; [contradiction|].
    reflexivity. }
  unfold Close, Close_enter.
  destruct (Z.eqb_spec (sharedMem c) 0) as [E|_]; [contradiction|].
  rewrite (Lock_free c Hmu). unfold Chan.close. simpl. rewrite Hopen.
  unfold Close_release.
  destruct eu as [e|]; [| destruct ec as [e|]; [| destruct Hfail; congruence]];
    eexists e, _, _; (split; [reflexivity | split; [reflexivity | intros; apply Hpanic]]).
Qed.

Lemma Close_after_failed_Close_panics_witness :
  exists (e : Z) (c1 : Conn) (w1 : Shared),
    Close (Some Demo.invalidAddress) None Demo.conn Demo.shared
    = Ret (Some (Errno e), c1, w1)
    /\ sharedMem c1 = sharedMem Demo.conn
    /\ forall eu' ec' : option Z,
         Close eu' ec' c1 w1 = Panics CloseOfClosedChannel.
Proof.
  apply (Close_after_failed_Close_panics (Some Demo.invalidAddress) None
           Demo.conn Demo.shared).
  - discriminate.
  - reflexivity.
  - reflexivity.
  - left. discriminate.
Defined.

(** ** Close while a Read waits *)

(** A [Read] that blocks is parked in the receive on [c.data]. *)
Lemma Read_Blocks_parked (c : Conn) (p : list byte) :
  Read c p = Blocks ->
  Read c p = Read_recv c p
  /\ sharedMem c <> 0
  /\ Chan.queue (data c) = []
  /\ Chan.closed (data c) = false.
Proof.
  unfold Read, Read_recv, Read_copy, Chan.recv.
  destruct (eof c); [discriminate|].
  destruct (Z.eqb_spec (sharedMem c) 0) as [_|Hmem]; [discriminate|].
  destruct (length (buf c) =? 0)%nat.
  - destruct (Chan.queue (data c)) as [|v q].
    + destruct (Chan.closed (data c)); [discriminate|]. auto.
    + destruct (copy p v). discriminate.
  - destruct (copy p (buf c)). discriminate.
Qed.

(** C9. Let a [Read] be parked on the empty channel, the mutex free.
    A [Close] from any caller gets as far as [close(c.data)] without
    returning early or panicking; on the connection as that statement
    leaves it, and again as the whole [Close] leaves it whatever its
    system calls answer, the parked receive completes with [ok] false
    and the [Read] returns end-of-stream. *)
Theorem Close_wakes_blocked_Read (c : Conn) (p : list byte) :
  Mutex c = false ->
  Read c p = Blocks ->
  Read c p = Read_recv c p
  /\ exists c2 : Conn,
       Close_enter c = Ret (Some c2)
       /\ Read_recv c2 p = Ret (0%nat, Some EOF, p, set_eof (set_buf c2 []) true)
       /\ forall (eu ec : option Z) (w : Shared),
            Close eu ec c w = Ret (Close_release eu ec c2 w)
            /\ let c3 := snd (fst (Close_release eu ec c2 w)) in
               Read_recv c3 p = Ret (0%nat, Some EOF, p, set_eof (set_buf c3 []) true).
Proof.
  intros Hmu HB.
  destruct (Read_Blocks_parked c p HB) as (Hpark & Hmem & Hq & Hopen).
  split; [exact Hpark|].
  assert (HE : Close_enter c
               = Ret (Some (set_data (set_Mutex c true)
                              (Chan.mk (Chan.queue (data c)) true (Chan.cap (data c)))))).
  { unfold Close_enter.
    destruct (Z.eqb_spec (sharedMem c) 0) as [E|_]; [contradiction|].
    rewrite (Lock_free c Hmu). unfold Chan.close. simpl. rewrite Hopen. reflexivity. }
  eexists. split; [exact HE|].
  split.
  - unfold Read_recv, Chan.recv. simpl. rewrite Hq. reflexivity.
  - intros eu ec w. split.
    + unfold Close. rewrite HE. reflexivity.
    + unfold Close_release.
      destruct eu, ec; unfold Read_recv, Chan.recv; simpl; rewrite Hq; reflexivity.
Qed.

Lemma Close_wakes_blocked_Read_witness :
  Read Demo.conn Demo.ping = Read_recv Demo.conn Demo.ping
  /\ exists c2 : Conn,
       Close_enter Demo.conn = Ret (Some c2)
       /\ Read_recv c2 Demo.ping
          = Ret (0%nat, Some EOF, Demo.ping, set_eof (set_buf c2 []) true)
       /\ forall (eu ec : option Z) (w : Shared),
            Close eu ec Demo.conn w = Ret (Close_release eu ec c2 w)
            /\ let c3 := snd (fst (Close_release eu ec c2 w)) in
               Read_recv c3 Demo.ping
               = Ret (0%nat, Some EOF, Demo.ping, set_eof (set_buf c3 []) true).
Proof.
  apply (Close_wakes_blocked_Read Demo.conn Demo.ping); reflexivity.
Defined.

(** ** Read on a live connection *)

Lemma copy_full (dst src : list byte) :
  length dst = length src -> snd (copy dst src) = src.
Proof.
  intros H. unfold copy. simpl. rewrite H, Nat.min_id.
  rewrite firstn_all, skipn_all2 by lia. apply app_nil_r.
Qed.

Section Live.

Variable c : Conn.
Hypothesis Heof : eof c = false.
Hypothesis Hmem : sharedMem c <> 0.

Lemma Read_from_buf (p : list byte) :
  buf c <> [] ->
  let n := Nat.min (length p) (length (buf c)) in
  Read c p
  = Ret (n, None, firstn n (buf c) ++ skipn n p, set_buf c (skipn n (buf c))).
Proof.
  intros Hbuf. unfold Read. rewrite Heof.
  destruct (Z.eqb_spec (sharedMem c) 0) as [E|_]; [contradiction|].
  destruct (buf c) as [|b bs] eqn:Eb; [contradiction|].
  simpl (length (b :: bs) =? 0)%nat. unfold Read_copy, copy. rewrite Eb.
  reflexivity.
Qed.

Lemma Read_from_queue (p v : list byte) (q : list (list byte)) :
  buf c = [] ->
  Chan.queue (data c) = v :: q ->
  let n := Nat.min (length p) (length v) in
  Read c p
  = Ret (n, None, firstn n v ++ skipn n p,
         set_buf (set_data c (Chan.mk q (Chan.closed (data c)) (Chan.cap (data c))))
                 (skipn n v)).
Proof.
  intros Hbuf Hq. unfold Read. rewrite Heof.
  destruct (Z.eqb_spec (sharedMem c) 0) as [E|_]; [contradiction|].
  rewrite Hbuf. simpl (length [] =? 0)%nat.
  unfold Read_recv, Chan.recv. rewrite Hq.
  unfold Read_copy, copy. reflexivity.
Qed.

End Live.

(** The claim C6 as written does not hold: on a connection that has
    been closed, a chunk still waiting on the channel is not
    delivered. *)
Lemma Read_closed_keeps_chunk :
  ~ (forall (c : Conn) (p : list byte),
        buf c <> [] \/ Chan.queue (data c) <> [] ->
        exists (p' : list byte) (c1 : Conn),
          Read c p
          = Ret (Nat.min (length p) (length (current c)), None, p', c1)).
Proof.
  intros H.
  destruct (H (fst Demo.closed) Demo.ping) as (p' & c1 & E).
  - right. vm_compute. discriminate.
  - vm_compute in E. discriminate E.
Qed.

(** C6, amended. On a connection that is still connected ([sharedMem]
    set, end-of-stream not flagged) and has bytes left in [c.buf] or a
    chunk on the channel, [Read] copies
    [min(len(p), len(chunk))] bytes of the current chunk to the front of
    [p], keeps the rest of the chunk in [c.buf], leaves the chunks
    behind it on the channel, and returns that count, which is at most
    [len(p)]. *)
Theorem Read_copies_what_fits (c : Conn) (p : list byte) :
  eof c = false ->
  sharedMem c <> 0 ->
  buf c <> [] \/ Chan.queue (data c) <> [] ->
  let n := Nat.min (length p) (length (current c)) in
  exists c1 : Conn,
    Read c p = Ret (n, None, firstn n (current c) ++ skipn n p, c1)
    /\ buf c1 = skipn n (current c)
    /\ Chan.queue (data c1) = pending c
    /\ (n <= length p)%nat.
Proof.
  intros Heof Hmem Hsome. unfold current, pending.
  destruct (buf c) as [|b bs] eqn:Eb.
  - destruct Hsome as [Hb|Hq]; [contradiction|].
    destruct (Chan.queue (data c)) as [|v q] eqn:Eq; [contradiction|].
    simpl hd. simpl tl. eexists. split.
    + apply (Read_from_queue c Heof Hmem p v q Eb Eq).
    + simpl. repeat split. lia.
  - rewrite <- Eb. eexists. split.
    + apply (Read_from_buf c Heof Hmem p). rewrite Eb. discriminate.
    + simpl. repeat split. lia.
Qed.

Lemma Read_copies_what_fits_witness :
  exists c1 : Conn,
    Read (fst Demo.answered) [x00; x00; x00]
    = Ret (3%nat, None, [x00; x00; x00], c1)
    /\ buf c1 = [x04; x70; x6f; x6e; x67]
    /\ Chan.queue (data c1) = []
    /\ (3 <= 3)%nat.
Proof.
  apply (Read_copies_what_fits (fst Demo.answered) [x00; x00; x00]).
  - reflexivity.
  - discriminate.
  - right. vm_compute. discriminate.
Defined.

(** ** A Write that returns nil *)

Lemma store_spec (r p r1 : list byte) :
  store r p = Some r1 ->
  (length p <= length r)%nat /\ r1 = p ++ skipn (length p) r.
Proof.
  unfold store, toSlice.
  destruct (Nat.leb_spec (length p) (length r)) as [Hle|]; [|discriminate].
  intros H. injection H as <-. split; [exact Hle|].
  change (snd (copy (firstn (length p) r) p) ++ skipn (length p) r
          = p ++ skipn (length p) r).
  rewrite copy_full; [reflexivity|].
  rewrite length_firstn. lia.
Qed.

Lemma toSlice_spec (r : list byte) (n : nat) (s : list byte) :
  toSlice r n = Some s -> (n <= length r)%nat /\ s = firstn n r /\ length s = n.
Proof.
  unfold toSlice.
  destruct (Nat.leb_spec n (length r)) as [Hle|]; [|discriminate].
  intros H. inversion H. repeat split; [exact Hle|].
  rewrite length_firstn. lia.
Qed.

Lemma Uint32_firstn (r : list byte) (n : nat) :
  (4 <= n)%nat -> Uint32 (firstn n r) = Uint32 r.
Proof.
  intros Hn.
  do 4 (destruct n as [|n]; [lia|]).
  destruct r as [|b0 [|b1 [|b2 [|b3 r]]]]; reflexivity.
Qed.

Lemma byteZ_nonneg (b : byte) : 0 <= byteZ b.
Proof. unfold byteZ. lia. Qed.

Lemma Uint32_nonneg (r : list byte) (L : Z) : Uint32 r = Some L -> 0 <= L.
Proof.
  destruct r as [|b0 [|b1 [|b2 [|b3 r]]]]; cbn [Uint32]; try discriminate.
  intros H.
  replace L with (Z.lor (Z.lor (Z.lor (byteZ b3) (Z.shiftl (byteZ b2) 8))
                               (Z.shiftl (byteZ b1) 16))
                        (Z.shiftl (byteZ b0) 24)) by congruence.
  rewrite !Z.lor_nonneg, !Z.shiftl_nonneg.
  repeat split; apply byteZ_nonneg.
Qed.

Lemma namePayload_spec (name : string) :
  namePayload name = list_byte_of_string name ++ [x00].
Proof.
  unfold namePayload, copy. simpl.
  rewrite repeat_length.
  replace (Nat.min (length (list_byte_of_string name) + 1)
                   (length (list_byte_of_string name)))
    with (length (list_byte_of_string name)) by lia.
  rewrite firstn_all. f_equal.
  induction (length (list_byte_of_string name)) as [|k IH]; [reflexivity|exact IH].
Qed.

Lemma Write_nil (ag : Agent) (c c1 : Conn) (w w1 : Shared) (p : list byte) (n : nat) :
  Write ag c w p = Ret (n, None, c1, w1) ->
  exists (r r2 : list byte) (result L : Z) (err : option error),
    0 < Z.of_nat (length p) <= agentMaxMsglen
    /\ Mutex c = false /\ sharedMem c <> 0 /\ Chan.closed (data c) = false
    /\ view w = Some r /\ (length p <= length r)%nat
    /\ sendMessage ag c (namePayload (mapName c)) (p ++ skipn (length p) r)
       = (result, err, r2)
    /\ result <> 0
    /\ Uint32 r2 = Some L /\ 0 <= L <= agentMaxMsglen - 4
    /\ (4 + Z.to_nat L <= length r2)%nat
    /\ n = length p
    /\ w1 = mkShared (Some r2) (fileOpen w)
    /\ c1 = set_data c (Chan.mk (Chan.queue (data c) ++ [firstn (4 + Z.to_nat L) r2])
                                false (Chan.cap (data c))).
Proof.
  unfold Write.
  destruct (Z.gtb_spec (Z.of_nat (length p)) agentMaxMsglen) as [|Hhi]; [discriminate|].
  destruct (Nat.eqb_spec (length p) 0) as [|Hlo]; [discriminate|].
  unfold Lock. destruct (Mutex c) eqn:Hmu; [discriminate|].
  change (sharedMem (set_Mutex c true)) with (sharedMem c).
  change (mapName (set_Mutex c true)) with (mapName c).
  change (data (set_Mutex c true)) with (data c).
  destruct (Z.eqb_spec (sharedMem c) 0) as [|Hmem]; [discriminate|].
  destruct (view w) as [r|] eqn:Hview; [|discriminate].
  destruct (store r p) as [r1|] eqn:Hstore; [|discriminate].
  destruct (store_spec r p r1 Hstore) as [Hle ->].
  rewrite sendMessage_Mutex.
  destruct (sendMessage ag c (namePayload (mapName c)) (p ++ skipn (length p) r))
    as [[result err] r2] eqn:Hsend.
  destruct (Z.eqb_spec result 0) as [|Hres]; [destruct err; discriminate|].
  destruct (toSlice r2 4) as [s4|] eqn:H4; [|discriminate].
  destruct (toSlice_spec r2 4 s4 H4) as (Hle4 & -> & _).
  cbn [option_map]. rewrite Uint32_firstn by lia.
  destruct (Uint32 r2) as [L|] eqn:HL; [|discriminate].
  destruct (Z.gtb_spec L (agentMaxMsglen - 4)) as [|Hfit]; [discriminate|].
  destruct (toSlice r2 (4 + Z.to_nat L)) as [src|] eqn:Hsrc; [|discriminate].
  destruct (toSlice_spec r2 (4 + Z.to_nat L) src Hsrc) as (Hlen & Esrc & Hsrclen).
  rewrite copy_full by (rewrite repeat_length; lia).
  unfold Chan.send. destruct (Chan.closed (data c)) eqn:Hopen; [discriminate|].
  destruct (length (Chan.queue (data c)) <? Chan.cap (data c))%nat; [|discriminate].
  intros H. inversion H; subst.
  exists r, r2, result, L, err.
  pose proof (Uint32_nonneg r2 L HL).
  repeat (split; [first [assumption | lia | reflexivity]|]).
  unfold Unlock, set_data, set_Mutex. simpl. rewrite Hmu. reflexivity.
Qed.

(** ** Draining chunks *)

Lemma firstn_head (n : nat) (chunk rest : list byte) :
  (n <= length chunk)%nat -> firstn n (firstn n chunk ++ rest) = firstn n chunk.
Proof.
  intros H. rewrite firstn_app, firstn_firstn, Nat.min_id, length_firstn.
  replace (n - Nat.min n (length chunk))%nat with 0%nat by lia.
  simpl. apply app_nil_r.
Qed.

Lemma total_cons (p : list byte) (bufs : list (list byte)) :
  total (p :: bufs) = (length p + total bufs)%nat.
Proof. reflexivity. Qed.

Lemma plan_ok_nonempty (chunk : list byte) (bufs : list (list byte)) :
  plan_ok chunk bufs -> chunk <> [] /\ bufs <> [].
Proof.
  intros [Hlt Hle]. split.
  - intros ->. simpl in Hlt. lia.
  - intros ->. unfold total in *. simpl in *. lia.
Qed.

(** With part of a chunk in [c.buf], a plan for that part reads it to
    its end and leaves the channel alone. *)
Lemma Reads_rest (bufs : list (list byte)) :
  forall c : Conn,
    eof c = false -> sharedMem c <> 0 -> buf c <> [] ->
    plan_ok (buf c) bufs ->
    exists got : list (list byte),
      Reads bufs c = Some (got, set_buf c []) /\ concat got = buf c.
Proof.
  induction bufs as [|p rest IH]; intros c Heof Hmem Hbuf Hplan.
  - destruct (plan_ok_nonempty _ _ Hplan) as [_ F]. contradiction.
  - destruct Hplan as [Hlt Hle]. cbn [Reads].
    rewrite (Read_from_buf c Heof Hmem p Hbuf). cbv zeta.
    set (n := Nat.min (length p) (length (buf c))).
    rewrite firstn_head by (unfold n; lia).
    destruct rest as [|p2 rest'].
    + rewrite total_cons in Hle. unfold total in Hle. simpl in Hle.
      assert (Hn : n = length (buf c)) by (unfold n; lia).
      cbn [Reads]. rewrite Hn, firstn_all, skipn_all.
      eexists. split; [reflexivity|]. simpl. apply app_nil_r.
    + change (removelast (p :: p2 :: rest')) with (p :: removelast (p2 :: rest')) in Hlt.
      rewrite total_cons in Hlt, Hle.
      assert (Hn : n = length p) by (unfold n; lia).
      destruct (IH (set_buf c (skipn n (buf c)))) as (got & HR & Hcat).
      * exact Heof.
      * exact Hmem.
      * simpl. intros E. apply (f_equal (@length byte)) in E.
        rewrite length_skipn in E. simpl in E. lia.
      * simpl. unfold plan_ok. rewrite length_skipn. lia.
      * rewrite HR. eexists. split; [reflexivity|].
        simpl in Hcat. simpl. rewrite Hcat. apply firstn_skipn.
Qed.

(** With [c.buf] empty and a chunk at the head of the channel, a plan
    for that chunk reads it to its end and leaves those behind it. *)
Lemma Reads_chunk (bufs : list (list byte)) (c : Conn) (v : list byte)
      (q : list (list byte)) :
  eof c = false -> sharedMem c <> 0 -> buf c = [] ->
  Chan.queue (data c) = v :: q ->
  plan_ok v bufs ->
  exists got : list (list byte),
    Reads bufs c
    = Some (got, set_data c (Chan.mk q (Chan.closed (data c)) (Chan.cap (data c))))
    /\ concat got = v.
Proof.
  intros Heof Hmem Hbuf Hq Hplan.
  destruct (plan_ok_nonempty _ _ Hplan) as [Hv Hbufs].
  destruct bufs as [|p rest]; [contradiction|].
  set (c' := set_buf (set_data c (Chan.mk q (Chan.closed (data c)) (Chan.cap (data c)))) v).
  assert (HR : Read c p = Read c' p).
  { rewrite (Read_from_queue c Heof Hmem p v q Hbuf Hq).
    rewrite (Read_from_buf c' Heof Hmem p Hv). reflexivity. }
  destruct (Reads_rest (p :: rest) c' Heof Hmem Hv Hplan) as (got & HRs & Hcat).
  exists got. split; [|exact Hcat].
  cbn [Reads] in HRs |- *. rewrite HR, HRs. f_equal. f_equal.
  unfold c', set_buf, set_data. simpl. rewrite Hbuf. reflexivity.
Qed.

(** Chunk after chunk: plans that fit the chunks at the head of the
    channel deliver exactly those chunks, in order. *)
Lemma drain_chunks (chunks : list (list byte)) (plans : list (list (list byte))) :
  Forall2 plan_ok chunks plans ->
  forall (c : Conn) (q : list (list byte)),
    eof c = false -> sharedMem c <> 0 -> buf c = [] ->
    Chan.queue (data c) = chunks ++ q ->
    drain plans c
    = Some (chunks, set_data c (Chan.mk q (Chan.closed (data c)) (Chan.cap (data c)))).
Proof.
  induction 1 as [|v bufs chunks plans Hplan _ IH]; intros c q Heof Hmem Hbuf Hq.
  - simpl in *. rewrite <- Hq. destruct c as [wi sf sm mn [qu cl ca] b e m]. reflexivity.
  - cbn [drain].
    destruct (Reads_chunk bufs c v (chunks ++ q) Heof Hmem Hbuf Hq Hplan)
      as (got & -> & ->).
    rewrite (IH (set_data c (Chan.mk (chunks ++ q) (Chan.closed (data c))
                                     (Chan.cap (data c))))
                q Heof Hmem Hbuf eq_refl).
    reflexivity.
Qed.

(** Whatever the buffers, [Read]s that return [nil] hand out the
    bytes of [c.buf] and of the chunks on the channel in order, none
    skipped or repeated. *)
Lemma Read_stream (c c1 : Conn) (p p1 : list byte) (n : nat) :
  Read c p = Ret (n, None, p1, c1) ->
  firstn n p1 ++ buf c1 ++ concat (Chan.queue (data c1))
  = buf c ++ concat (Chan.queue (data c)).
Proof.
  unfold Read, Read_recv, Read_copy, Chan.recv, copy.
  destruct (eof c); [discriminate|].
  destruct (sharedMem c =? 0); [discriminate|].
  destruct (buf c) as [|b bs] eqn:Hbuf.
  - simpl (length [] =? 0)%nat. cbv iota.
    destruct (Chan.queue (data c)) as [|v q].
    + destruct (Chan.closed (data c)); discriminate.
    + cbn [buf set_buf set_data data Chan.queue].
      intros H. injection H as <- <- <-.
      rewrite firstn_head by lia. cbn [buf set_buf data set_data Chan.queue concat app].
      rewrite app_assoc, firstn_skipn. reflexivity.
  - simpl (length (b :: bs) =? 0)%nat. cbv iota.
    intros H. injection H as <- <- <-.
    rewrite firstn_head by (simpl; lia). cbn [buf set_buf data set_data].
    rewrite app_assoc, firstn_skipn. reflexivity.
Qed.

Lemma Reads_stream (bufs : list (list byte)) :
  forall (c c2 : Conn) (got : list (list byte)),
    Reads bufs c = Some (got, c2) ->
    concat got ++ buf c2 ++ concat (Chan.queue (data c2))
    = buf c ++ concat (Chan.queue (data c)).
Proof.
  induction bufs as [|p rest IH]; intros c c2 got; cbn [Reads].
  - intros H. injection H as <- <-. reflexivity.
  - destruct (Read c p) as [[[[n [e|]] p1] c1]| | |] eqn:HR; try discriminate.
    destruct (Reads rest c1) as [[got' c3]|] eqn:HRs; [|discriminate].
    intros H. injection H as <- <-.
    cbn [concat]. rewrite <- app_assoc, (IH c1 c3 got' HRs).
    exact (Read_stream c c1 p p1 n HR).
Qed.

(** ** Write, then Read *)

Lemma reply_in_spec (r2 : list byte) (L : Z) (open : bool) :
  Uint32 r2 = Some L ->
  (4 + Z.to_nat L <= length r2)%nat ->
  reply_in (mkShared (Some r2) open) = firstn (4 + Z.to_nat L) r2
  /\ length (reply_in (mkShared (Some r2) open)) = (4 + Z.to_nat L)%nat
  /\ Uint32 (reply_in (mkShared (Some r2) open)) = Some L.
Proof.
  intros HL Hlen. unfold reply_in. cbn [view]. rewrite HL.
  split; [reflexivity|]. split.
  - rewrite length_firstn. lia.
  - rewrite Uint32_firstn by lia. exact HL.
Qed.

(** C1. Let [Write(p)], [0 < len(p) <= 8192], return [nil].  Then the
    mapping was handed to the agent with [p] at its start and the
    region name, NUL-terminated, as payload; the reply code was not 0;
    the chunk put on the channel, behind those already there, is the
    framed reply found at the start of the mapping: its 4-byte
    big-endian prefix [L] and [L] bytes of payload, [4 + L] bytes in
    all; and the count returned is [len(p)].  With nothing pending
    before the call, a [Read], or several whose buffers together reach
    the end of the chunk, deliver exactly these [4 + L] bytes. *)
Theorem Write_then_Read
  (ag : Agent) (c c1 : Conn) (w w1 : Shared) (p : list byte) (n : nat) :
  0 < Z.of_nat (length p) <= agentMaxMsglen ->
  Write ag c w p = Ret (n, None, c1, w1) ->
  (exists (r r2 : list byte) (result : Z) (err : option error),
      view w = Some r
      /\ sendMessage ag c (list_byte_of_string (mapName c) ++ [x00])
                     (p ++ skipn (length p) r)
         = (result, err, r2)
      /\ result <> 0
      /\ view w1 = Some r2)
  /\ (exists L : Z,
        0 <= L <= agentMaxMsglen - 4
        /\ Uint32 (reply_in w1) = Some L
        /\ length (reply_in w1) = (4 + Z.to_nat L)%nat)
  /\ Chan.queue (data c1) = Chan.queue (data c) ++ [reply_in w1]
  /\ n = length p
  /\ (flagged_closed c -> buf c = [] -> Chan.queue (data c) = [] ->
      forall bufs : list (list byte),
        plan_ok (reply_in w1) bufs ->
        exists (got : list (list byte)) (c2 : Conn),
          Reads bufs c1 = Some (got, c2)
          /\ concat got = reply_in w1
          /\ buf c2 = [] /\ Chan.queue (data c2) = []).
Proof.
  intros _ HW.
  destruct (Write_nil ag c c1 w w1 p n HW)
    as (r & r2 & result & L & err & _ & Hmu & Hmem & Hopen & Hview & Hle
        & Hsend & Hres & HL & HLr & Hlen & Hn & -> & ->).
  destruct (reply_in_spec r2 L (fileOpen w) HL Hlen) as (Hrep & Hreplen & HrepL).
  split.
  { exists r, r2, result, err. rewrite <- namePayload_spec. auto. }
  split.
  { exists L. auto. }
  split; [rewrite Hrep; reflexivity|].
  split; [exact Hn|].
  intros Hflag Hbuf Hq bufs Hplan.
  assert (Heof : eof c = false).
  { destruct (eof c) eqn:E; [|reflexivity].
    rewrite (proj1 (Hflag E)) in Hopen. discriminate. }
  destruct (Reads_chunk bufs
              (set_data c (Chan.mk (Chan.queue (data c) ++ [firstn (4 + Z.to_nat L) r2])
                                   false (Chan.cap (data c))))
              (reply_in (mkShared (Some r2) (fileOpen w))) [])
    as (got & HR & Hcat); try assumption.
  { simpl. rewrite Hq, Hrep. reflexivity. }
  exists got. eexists. split; [exact HR|]. split; [exact Hcat|]. split; [exact Hbuf|reflexivity].
Qed.

Lemma Write_then_Read_witness :
  Write (Demo.agent 1 0 Demo.pong) Demo.conn Demo.shared Demo.ping
  = Ret (4%nat, None, fst Demo.answered, snd Demo.answered)
  /\ Chan.queue (data (fst Demo.answered)) = [Demo.pong]
  /\ exists (got : list (list byte)) (c2 : Conn),
       Reads [[x00; x00; x00]; repeat xff 16] (fst Demo.answered) = Some (got, c2)
       /\ concat got = Demo.pong
       /\ buf c2 = [] /\ Chan.queue (data c2) = [].
Proof.
  assert (HW : Write (Demo.agent 1 0 Demo.pong) Demo.conn Demo.shared Demo.ping
               = Ret (4%nat, None, fst Demo.answered, snd Demo.answered))
    by (vm_compute; reflexivity).
  assert (Hsize : 0 < Z.of_nat (length Demo.ping) <= agentMaxMsglen)
    by (vm_compute; split; [reflexivity | discriminate]).
  destruct (Write_then_Read (Demo.agent 1 0 Demo.pong) Demo.conn (fst Demo.answered)
              Demo.shared (snd Demo.answered) Demo.ping 4 Hsize HW)
    as (_ & _ & Hq & _ & Hreads).
  split; [exact HW|]. split; [exact Hq|].
  apply (Hreads (fun H => match Bool.diff_false_true H with end) eq_refl eq_refl
                [[x00; x00; x00]; repeat xff 16]).
  unfold plan_ok. vm_compute. lia.
Defined.

(** ** Several Writes, then Reads *)

Lemma Writes_nil (reqs : list (Agent * list byte)) :
  forall (c c1 : Conn) (w w1 : Shared) (replies : list (list byte)),
    Writes reqs c w = Some (replies, c1, w1) ->
    Chan.queue (data c1) = Chan.queue (data c) ++ replies
    /\ length replies = length reqs
    /\ buf c1 = buf c /\ eof c1 = eof c /\ sharedMem c1 = sharedMem c
    /\ (reqs <> [] -> sharedMem c <> 0 /\ Chan.closed (data c) = false).
Proof.
  induction reqs as [|[ag p] rest IH]; intros c c1 w w1 replies.
  - simpl. intros H. injection H as <- <- <-.
    rewrite app_nil_r.
    split; [reflexivity|]. split; [reflexivity|]. split; [reflexivity|].
    split; [reflexivity|]. split; [reflexivity|].
    intros F. exfalso. apply F. reflexivity.
  - cbn [Writes].
    destruct (Write ag c w p) as [[[[n [e|]] c'] w']| | |] eqn:HW; try discriminate.
    destruct (Writes rest c' w') as [[[replies' c2] w2]|] eqn:HWs; [|discriminate].
    intros H. injection H as <- <- <-.
    destruct (Write_nil ag c c' w w' p n HW)
      as (r & r2 & result & L & err & _ & _ & Hmem & Hopen & _ & _
          & _ & _ & HL & _ & Hlen & _ & Ew & Ec).
    destruct (IH c' c2 w' w2 replies' HWs) as (Hq & Hn & Hb & He & Hm & _).
    destruct (reply_in_spec r2 L (fileOpen w) HL Hlen) as (Hrep & _ & _).
    subst c' w'. simpl in Hq, Hb, He, Hm.
    repeat split; try assumption.
    + rewrite Hq, Hrep, <- app_assoc. reflexivity.
    + simpl. rewrite Hn. reflexivity.
Qed.

(** C5. Let a sequence of [Write]s all return [nil], no [Read] in
    between.  The channel then holds, behind what it held before, the
    framed reply of each [Write] in the order of the calls.  With
    nothing pending at the start, [Read]s deliver the replies whole and
    in that order: whatever buffers are used for a chunk, a [Read] with
    a buffer smaller than what is left of it is followed up inside the
    same chunk, and the next chunk is begun only when this one is
    exhausted; and any [Read]s at all that return [nil] have delivered,
    together with what is still pending, the replies joined in that
    order. *)
Theorem Writes_then_Reads
  (reqs : list (Agent * list byte)) (c c1 : Conn) (w w1 : Shared)
  (replies : list (list byte)) :
  flagged_closed c ->
  buf c = [] ->
  Writes reqs c w = Some (replies, c1, w1) ->
  length replies = length reqs
  /\ Chan.queue (data c1) = Chan.queue (data c) ++ replies
  /\ buf c1 = []
  /\ (Chan.queue (data c) = [] ->
      (forall plans : list (list (list byte)),
          Forall2 plan_ok replies plans ->
          exists c2 : Conn,
            drain plans c1 = Some (replies, c2)
            /\ buf c2 = [] /\ Chan.queue (data c2) = [])
      /\ (forall (bufs got : list (list byte)) (c2 : Conn),
            Reads bufs c1 = Some (got, c2) ->
            concat got ++ buf c2 ++ concat (Chan.queue (data c2)) = concat replies)).
Proof.
  intros Hflag Hbuf HWs.
  destruct (Writes_nil reqs c c1 w w1 replies HWs) as (Hq & Hn & Hb & He & Hm & Hlive).
  split; [exact Hn|]. split; [exact Hq|]. split; [congruence|].
  intros Hq0. rewrite Hq0 in Hq. simpl in Hq.
  split; [|intros bufs got c2 HR; rewrite (Reads_stream bufs c1 c2 got HR), Hb, Hbuf, Hq;
            reflexivity].
  intros plans Hplans.
  destruct reqs as [|req rest].
  - destruct replies; [|discriminate]. inversion Hplans; subst.
    exists c1. simpl. repeat split; congruence.
  - destruct Hlive as [Hmem Hopen]; [discriminate|].
    assert (Heof : eof c1 = false).
    { rewrite He. destruct (eof c) eqn:E; [|reflexivity].
      rewrite (proj1 (Hflag E)) in Hopen. discriminate. }
    eexists. split.
    + apply (drain_chunks replies plans Hplans c1 []); try congruence.
      rewrite app_nil_r. exact Hq.
    + split; [simpl; congruence | reflexivity].
Qed.

Lemma Writes_then_Reads_witness :
  Writes [(Demo.agent 1 0 Demo.pong, Demo.ping); (Demo.agent 1 0 Demo.pang, Demo.ping)]
         Demo.conn Demo.shared
  = Some ([Demo.pong; Demo.pang], fst Demo.answered_twice, snd Demo.answered_twice)
  /\ Chan.queue (data (fst Demo.answered_twice)) = [Demo.pong; Demo.pang]
  /\ exists c2 : Conn,
       drain [[[x00; x00; x00]; [x00; x00; x00]; repeat xff 16]; [repeat xff 8]]
             (fst Demo.answered_twice)
       = Some ([Demo.pong; Demo.pang], c2)
       /\ buf c2 = [] /\ Chan.queue (data c2) = [].
Proof.
  assert (HW : Writes [(Demo.agent 1 0 Demo.pong, Demo.ping);
                       (Demo.agent 1 0 Demo.pang, Demo.ping)]
                      Demo.conn Demo.shared
               = Some ([Demo.pong; Demo.pang],
                       fst Demo.answered_twice, snd Demo.answered_twice))
    by (vm_compute; reflexivity).
  destruct (Writes_then_Reads _ Demo.conn (fst Demo.answered_twice)
              Demo.shared (snd Demo.answered_twice) [Demo.pong; Demo.pang]
              (fun H => match Bool.diff_false_true H with end) eq_refl HW)
    as (_ & Hq & _ & Hdrain).
  split; [exact HW|]. split; [exact Hq|].
  apply (proj1 (Hdrain eq_refl)).
  repeat constructor; vm_compute; lia.
Defined.

(** ** Region names *)

Lemma fmt_x_inj (a b : Z) : fmt_x a = fmt_x b -> a = b.
Proof.
  unfold fmt_x. intros H. apply HexadecimalZ.to_int_inj.
  assert (Hn : forall z : Z,
             Z.to_hex_int z <> Hexadecimal.Pos Hexadecimal.Nil
             /\ Z.to_hex_int z <> Hexadecimal.Neg Hexadecimal.Nil).
  { intros [|q|q]; simpl; split; try discriminate;
      intros E; injection E; apply Unsigned.to_uint_nonnil. }
  apply (f_equal NilZero.int_of_string) in H.
  rewrite !NilZero.isi in H by apply Hn.
  congruence.
Qed.

Lemma append_inj_l (s a b : string) : (s ++ a = s ++ b)%string -> a = b.
Proof.
  induction s as [|ch s IH]; simpl; intros H; [exact H|].
  injection H as H. exact (IH H).
Qed.

Lemma regionName_inj (pid a b : Z) : regionName pid a = regionName pid b -> a = b.
Proof.
  unfold regionName. intros H.
  apply append_inj_l, append_inj_l, append_inj_l in H.
  exact (fmt_x_inj a b H).
Qed.

(** A call either leaves the counter alone and yields no connection,
    or steps it once; a connection it yields is named after the
    process id and the stepped counter. *)
Lemma NewPageantConn_name (os : Sys) (pr : Proc) :
  let pr1 := mkProc (pid pr) (Uint64_Add (connUniqueID pr) 1) in
  match NewPageantConn os pr with
  | (Some (c, _), _, pr') =>
      mapName c = regionName (pid pr) (Uint64_Add (connUniqueID pr) 1) /\ pr' = pr1
  | (None, _, pr') => pr' = pr \/ pr' = pr1
  end.
Proof.
  unfold NewPageantConn, establishConn.
  destruct (PageantAvailable (findWindow1 os)); simpl; [|auto].
  destruct (PageantWindow (findWindow2 os)) as [win [e|]]; [auto|].
  destruct (createFileMapping os) as [file [e|]]; [auto|].
  destruct (MapViewOfFile (mapViewOfFile os)) as [mem [e|]]; auto.
Qed.

Lemma add_mod_neq (x k : Z) : 0 < k < 2 ^ 64 -> (x + k) mod 2 ^ 64 <> x mod 2 ^ 64.
Proof.
  intros Hk H.
  assert (E : (x + k - x) mod 2 ^ 64 = 0).
  { rewrite Zminus_mod, H, Z.sub_diag. reflexivity. }
  replace (x + k - x) with k in E by ring.
  rewrite Z.mod_small in E by lia. lia.
Qed.

(** Every connection obtained from [calls] carries the counter value of
    one of the steps made. *)
Lemma connect_all_names (calls : list Sys) :
  forall pr : Proc,
    Forall (fun c : Conn =>
              exists k : Z,
                1 <= k <= Z.of_nat (length calls)
                /\ mapName c = regionName (pid pr) ((connUniqueID pr + k) mod 2 ^ 64))
           (connect_all calls pr).
Proof.
  induction calls as [|os rest IH]; intros pr; [constructor|].
  cbn [connect_all].
  pose proof (NewPageantConn_name os pr) as Hname. cbv zeta in Hname.
  assert (Hstep : Forall (fun c : Conn =>
              exists k : Z,
                1 <= k <= Z.of_nat (length (os :: rest))
                /\ mapName c = regionName (pid pr) ((connUniqueID pr + k) mod 2 ^ 64))
           (connect_all rest (mkProc (pid pr) (Uint64_Add (connUniqueID pr) 1)))).
  { eapply Forall_impl; [|apply IH].
    intros c (k & Hk & Hc). exists (k + 1). split.
    - rewrite length_cons. lia.
    - rewrite Hc. simpl. unfold Uint64_Add.
      rewrite Zplus_mod_idemp_l. f_equal. f_equal. ring. }
  assert (Hstay : Forall (fun c : Conn =>
              exists k : Z,
                1 <= k <= Z.of_nat (length (os :: rest))
                /\ mapName c = regionName (pid pr) ((connUniqueID pr + k) mod 2 ^ 64))
           (connect_all rest pr)).
  { eapply Forall_impl; [|apply IH].
    intros c (k & Hk & Hc). exists k. split; [rewrite length_cons; lia | exact Hc]. }
  destruct (NewPageantConn os pr) as [[[[c w]|] err] pr'].
  - destruct Hname as [Hc ->]. constructor; [|exact Hstep].
    exists 1. split; [rewrite length_cons; lia | exact Hc].
  - destruct Hname as [-> | ->]; assumption.
Qed.

Lemma NewPageantConn_Demo (pr : Proc) :
  NewPageantConn Demo.sys pr
  = (Some (mkConn 0x30a2e 0x1f4 0x26a0000
                  (regionName (pid pr) (Uint64_Add (connUniqueID pr) 1))
                  (Chan.make 10) [] false false,
           mkShared (Some freshView) true),
     None,
     mkProc (pid pr) (Uint64_Add (connUniqueID pr) 1)).
Proof. reflexivity. Qed.

Lemma last_name_in (n : nat) :
  forall pr : Proc,
    In (regionName (pid pr) ((connUniqueID pr + Z.of_nat (S n)) mod 2 ^ 64))
       (map mapName (connect_all (repeat Demo.sys (S n)) pr)).
Proof.
  induction n as [|n IH]; intros pr;
    cbn [repeat connect_all]; rewrite NewPageantConn_Demo; cbn [map mapName].
  - left. reflexivity.
  - right.
    specialize (IH (mkProc (pid pr) (Uint64_Add (connUniqueID pr) 1))).
    cbn [pid connUniqueID] in IH. unfold Uint64_Add in IH at 1.
    rewrite Zplus_mod_idemp_l in IH.
    replace (connUniqueID pr + 1 + Z.of_nat (S n))
      with (connUniqueID pr + Z.of_nat (S (S n))) in IH by lia.
    exact IH.
Qed.

Lemma names_wrap (m : nat) (pr : Proc) :
  Z.of_nat m = 2 ^ 64 - 1 ->
  ~ NoDup (map mapName (connect_all (repeat Demo.sys (S (S m))) pr)).
Proof.
  intros Hm ND.
  cbn [repeat connect_all] in ND. rewrite NewPageantConn_Demo in ND.
  cbn [map mapName] in ND.
  apply NoDup_cons_iff in ND. destruct ND as [Hnotin _]. apply Hnotin.
  pose proof (last_name_in m (mkProc (pid pr) (Uint64_Add (connUniqueID pr) 1))) as Hin.
  cbn [pid connUniqueID repeat] in Hin.
  replace ((Uint64_Add (connUniqueID pr) 1 + Z.of_nat (S m)) mod 2 ^ 64)
    with (Uint64_Add (connUniqueID pr) 1) in Hin; [exact Hin|].
  unfold Uint64_Add.
  replace (Z.of_nat (S m)) with (1 * 2 ^ 64) by lia.
  rewrite Z_mod_plus_full, Z.mod_mod by lia. reflexivity.
Qed.

(** The number of calls in [regionName_unique] below cannot be raised:
    the counter is 64 bits wide, and a call that came 2^64 successful
    calls after another, more than any process makes, would be given
    the same name. *)
Lemma regionName_reused :
  ~ (forall (calls : list Sys) (pr : Proc),
        NoDup (map mapName (connect_all calls pr))).
Proof.
  intros H.
  apply (names_wrap (Z.to_nat (2 ^ 64 - 1)) Demo.proc).
  - apply Z2Nat.id. lia.
  - apply H.
Qed.

Lemma connect_all_NoDup (calls : list Sys) :
  forall pr : Proc,
    Z.of_nat (length calls) <= 2 ^ 64 ->
    NoDup (map mapName (connect_all calls pr)).
Proof.
  induction calls as [|os rest IH]; intros pr Hlen; [constructor|].
  rewrite length_cons in Hlen.
  cbn [connect_all].
  pose proof (NewPageantConn_name os pr) as Hname. cbv zeta in Hname.
  pose proof (connect_all_names rest) as Hnames.
  destruct (NewPageantConn os pr) as [[[[c w]|] err] pr'].
  - destruct Hname as [Hc ->]. cbn [map]. constructor.
    + intros Hin. apply in_map_iff in Hin. destruct Hin as (c' & Hsame & Hin).
      specialize (Hnames (mkProc (pid pr) (Uint64_Add (connUniqueID pr) 1))).
      rewrite Forall_forall in Hnames.
      destruct (Hnames c' Hin) as (k & Hk & Hc').
      rewrite Hc, Hc' in Hsame. cbn [pid connUniqueID] in Hsame.
      apply regionName_inj in Hsame.
      apply (add_mod_neq (Uint64_Add (connUniqueID pr) 1) k); [lia|].
      rewrite Hsame. unfold Uint64_Add. rewrite Z.mod_mod by lia. reflexivity.
    + apply IH. lia.
  - apply IH. lia.
Qed.

Lemma StronglySorted_shift (ks : list Z) :
  StronglySorted Z.lt ks -> StronglySorted Z.lt (map (fun k => k + 1) ks).
Proof.
  induction 1 as [|k ks Hs IH Hall]; cbn [map]; constructor; [exact IH|].
  apply Forall_map. eapply Forall_impl; [|exact Hall].
  intros k' Hk. cbv beta. lia.
Qed.

(** The connections carry, in the order they were made, counter values
    that are further and further steps away from where the counter
    stood. *)
Lemma connect_all_steps (calls : list Sys) :
  forall pr : Proc,
    exists ks : list Z,
      map mapName (connect_all calls pr)
      = map (fun k => regionName (pid pr) (Uint64_Add (connUniqueID pr) k)) ks
      /\ StronglySorted Z.lt ks
      /\ Forall (fun k => 1 <= k <= Z.of_nat (length calls)) ks.
Proof.
  induction calls as [|os rest IH]; intros pr.
  { exists []. repeat split; constructor. }
  cbn [connect_all].
  pose proof (NewPageantConn_name os pr) as Hname. cbv zeta in Hname.
  assert (Hstep : exists ks : list Z,
             map mapName (connect_all rest
                            (mkProc (pid pr) (Uint64_Add (connUniqueID pr) 1)))
             = map (fun k => regionName (pid pr) (Uint64_Add (connUniqueID pr) k)) ks
             /\ StronglySorted Z.lt ks
             /\ Forall (fun k => 2 <= k <= Z.of_nat (length (os :: rest))) ks).
  { destruct (IH (mkProc (pid pr) (Uint64_Add (connUniqueID pr) 1)))
      as (ks & Hn & Hs & Hr).
    exists (map (fun k => k + 1) ks). split; [|split].
    - rewrite Hn, map_map. apply map_ext. intros k. cbn [pid connUniqueID].
      unfold Uint64_Add. rewrite Zplus_mod_idemp_l. f_equal. f_equal. ring.
    - apply StronglySorted_shift. exact Hs.
    - apply Forall_map. eapply Forall_impl; [|exact Hr].
      intros k Hk. cbv beta in Hk |- *. rewrite length_cons. lia. }
  destruct (NewPageantConn os pr) as [[[[c w]|] err] pr'].
  - destruct Hname as [Hc ->]. destruct Hstep as (ks & Hn & Hs & Hr).
    exists (1 :: ks). split; [|split].
    + cbn [map]. rewrite Hc, Hn. reflexivity.
    + constructor; [exact Hs|]. eapply Forall_impl; [|exact Hr].
      intros k Hk. cbv beta in Hk. lia.
    + constructor; [rewrite length_cons; lia|].
      eapply Forall_impl; [|exact Hr]. intros k Hk. cbv beta in Hk |- *. lia.
  - destruct Hname as [-> | ->].
    + destruct (IH pr) as (ks & Hn & Hs & Hr).
      exists ks. split; [exact Hn|]. split; [exact Hs|].
      eapply Forall_impl; [|exact Hr]. intros k Hk. cbv beta in Hk |- *.
      rewrite length_cons. lia.
    + destruct Hstep as (ks & Hn & Hs & Hr).
      exists ks. split; [exact Hn|]. split; [exact Hs|].
      eapply Forall_impl; [|exact Hr]. intros k Hk. cbv beta in Hk |- *. lia.
Qed.

(** C7. A connection is named after the process id and the value of
    the atomic counter [connUniqueID], which a call of [NewPageantConn]
    steps once when its window lookups succeed and otherwise leaves
    alone.  The connections a process obtains carry, in the order they
    were made, counter values ever more steps away from where the
    counter stood (increasing values, as long as the 64 bits are not
    used up), so no two of them have the same region name, in whatever
    order and however fast the calls are made, and no name is used
    twice; this over any run of up to 2^64 calls, which is every run a
    process can make. *)
Theorem regionName_unique (calls : list Sys) (pr : Proc) :
  Z.of_nat (length calls) <= 2 ^ 64 ->
  NoDup (map mapName (connect_all calls pr))
  /\ Forall (fun c : Conn =>
               exists k : Z,
                 1 <= k <= Z.of_nat (length calls)
                 /\ mapName c = regionName (pid pr) (Uint64_Add (connUniqueID pr) k))
            (connect_all calls pr)
  /\ exists ks : list Z,
       map mapName (connect_all calls pr)
       = map (fun k => regionName (pid pr) (Uint64_Add (connUniqueID pr) k)) ks
       /\ StronglySorted Z.lt ks
       /\ Forall (fun k => 1 <= k <= Z.of_nat (length calls)) ks
       /\ (0 <= connUniqueID pr ->
           connUniqueID pr + Z.of_nat (length calls) < 2 ^ 64 ->
           Forall (fun k => Uint64_Add (connUniqueID pr) k = connUniqueID pr + k) ks).
Proof.
  intros Hlen. split; [|split].
  - apply connect_all_NoDup. exact Hlen.
  - exact (connect_all_names calls pr).
  - destruct (connect_all_steps calls pr) as (ks & Hn & Hs & Hr).
    exists ks. split; [exact Hn|]. split; [exact Hs|]. split; [exact Hr|].
    intros H0 Hroom. eapply Forall_impl; [|exact Hr].
    intros k Hk. cbv beta in Hk. unfold Uint64_Add. apply Z.mod_small. lia.
Qed.

Lemma regionName_unique_witness :
  map mapName
      (connect_all [Demo.sys; mkSys (0x30a2e, 0) (0x30a2e, 0) (0, Some 8) (0, 0);
                    Demo.sys; Demo.sys]
                   Demo.proc)
  = ["PageantRequest_1092_1"; "PageantRequest_1092_3"; "PageantRequest_1092_4"]%string
  /\ NoDup (map mapName
                (connect_all [Demo.sys; mkSys (0x30a2e, 0) (0x30a2e, 0) (0, Some 8) (0, 0);
                              Demo.sys; Demo.sys]
                             Demo.proc)).
Proof.
  split; [reflexivity|].
  apply (regionName_unique
           [Demo.sys; mkSys (0x30a2e, 0) (0x30a2e, 0) (0, Some 8) (0, 0);
            Demo.sys; Demo.sys]
           Demo.proc).
  vm_compute. discriminate.
Defined.

(** ** The end-of-stream flag *)

(** [flagged_closed], assumed of the connection in C1 and C5, holds of
    every connection [NewPageantConn] returns and is kept by every call
    that returns. *)
Lemma flagged_closed_new (os : Sys) (pr pr1 : Proc) (c : Conn) (w : Shared)
      (err : option error) :
  NewPageantConn os pr = (Some (c, w), err, pr1) -> flagged_closed c.
Proof.
  unfold NewPageantConn, establishConn.
  destruct (PageantAvailable (findWindow1 os)); simpl; [|discriminate].
  destruct (PageantWindow (findWindow2 os)) as [win [e|]]; [discriminate|].
  destruct (createFileMapping os) as [file [e|]]; [discriminate|].
  destruct (MapViewOfFile (mapViewOfFile os)) as [mem [e|]]; [discriminate|].
  intros H. injection H as <- _ _ _. intros F. discriminate F.
Qed.

Lemma flagged_closed_Read (c c1 : Conn) (p p1 : list byte) (n : nat)
      (err : option error) :
  flagged_closed c -> Read c p = Ret (n, err, p1, c1) -> flagged_closed c1.
Proof.
  intros Hflag. unfold Read, Read_recv, Read_copy, Chan.recv.
  destruct (eof c) eqn:Heof.
  { intros H. injection H as <- <- <- <-. exact Hflag. }
  destruct (Z.eqb_spec (sharedMem c) 0) as [|Hmem].
  { intros H. injection H as <- <- <- <-. exact Hflag. }
  destruct (length (buf c) =? 0)%nat.
  - destruct (Chan.queue (data c)) as [|v q].
    + destruct (Chan.closed (data c)) eqn:Hcl; [|discriminate].
      intros H. injection H as <- <- <- <-. intros _. split; [exact Hcl | exact Hmem].
    + destruct (copy p v). intros H. injection H as <- <- <- <-.
      intros F. simpl in F. congruence.
  - destruct (copy p (buf c)). intros H. injection H as <- <- <- <-.
    intros F. simpl in F. congruence.
Qed.

Lemma flagged_closed_Write (ag : Agent) (c c1 : Conn) (w w1 : Shared)
      (p : list byte) (n : nat) (err : option error) :
  flagged_closed c -> Write ag c w p = Ret (n, err, c1, w1) -> flagged_closed c1.
Proof.
  intros Hflag HW.
  destruct err as [e|].
  - assert (E : c1 = c); [|rewrite E; exact Hflag].
    revert HW. unfold Write.
    destruct (Z.of_nat (length p) >? agentMaxMsglen); [congruence|].
    destruct (length p =? 0)%nat; [congruence|].
    destruct (Lock c) as [c2|] eqn:HL; [|discriminate].
    rewrite <- (Unlock_Lock c c2 HL).
    destruct (sharedMem c2 =? 0); [congruence|].
    destruct (view w) as [r|]; [|discriminate].
    destruct (store r p) as [r1|]; [|discriminate].
    destruct (sendMessage ag c2 (namePayload (mapName c2)) r1) as [[result er] r2].
    destruct (result =? 0); [destruct er; congruence|].
    destruct (option_map Uint32 (toSlice r2 4)) as [[L|]|]; try discriminate.
    destruct (L >? agentMaxMsglen - 4); [congruence|].
    destruct (toSlice r2 (4 + Z.to_nat L)); [|discriminate].
    destruct (Chan.send _ _); discriminate.
  - destruct (Write_nil ag c c1 w w1 p n HW)
      as (r & r2 & result & L & er & _ & _ & _ & Hopen & _ & _ & _ & _ & _ & _ & _ & _ & _ & ->).
    intros F. simpl in F. rewrite (proj1 (Hflag F)) in Hopen. discriminate.
Qed.

Lemma flagged_closed_Close (eu ec : option Z) (c c1 : Conn) (w w1 : Shared)
      (err : option error) :
  flagged_closed c -> Close eu ec c w = Ret (err, c1, w1) -> flagged_closed c1.
Proof.
  intros Hflag. unfold Close, Close_enter, Close_release, Lock, Chan.close.
  destruct (sharedMem c =? 0).
  { intros H. injection H as <- <- <-. exact Hflag. }
  destruct (Mutex c); [discriminate|]. simpl.
  destruct (Chan.closed (data c)) eqn:Hcl; [discriminate|].
  destruct eu, ec; intros H; injection H as <- <- <-; intros F; simpl in F;
    rewrite (proj1 (Hflag F)) in Hcl; discriminate.
Qed.

Lemma flagged_closed_calls (ks : list Call) :
  forall (c c1 : Conn) (w w1 : Shared),
    flagged_closed c -> calls ks c w = Some (c1, w1) -> flagged_closed c1.
Proof.
  induction ks as [|k ks IH]; intros c c1 w w1 Hflag; simpl.
  - intros H. injection H as <- <-. exact Hflag.
  - destruct (call k c w) as [[[err c2] w2]|] eqn:Hcall; [|discriminate].
    apply IH. destruct k as [p | ag p | eu ec]; simpl in Hcall.
    + destruct (Read c p) as [[[[n e] p1] c3]| | |] eqn:HR; try discriminate.
      injection Hcall as <- <- <-. exact (flagged_closed_Read c c3 p p1 n e Hflag HR).
    + destruct (Write ag c w p) as [[[[n e] c3] w3]| | |] eqn:HW; try discriminate.
      injection Hcall as <- <- <-. exact (flagged_closed_Write ag c c3 w w3 p n e Hflag HW).
    + destruct (Close eu ec c w) as [[[e c3] w3]| | |] eqn:HC; try discriminate.
      injection Hcall as <- <- <-. exact (flagged_closed_Close eu ec c c3 w w3 e Hflag HC).
Qed.

(** * Further properties of the package *)

(** ** Finding the window and connecting *)

(** X1. [PageantWindow] hands back the window it was given and reports
    an error exactly when that window is 0, whatever the last error
    says: a last error left over beside a window that was found is not
    an error, and window 0 is one even with last error 0.  With window
    0 the error carries the last error when there is one. *)
Theorem PageantWindow_found (win e : Z) :
  fst (PageantWindow (win, e)) = win
  /\ (snd (PageantWindow (win, e)) = None <-> win <> 0)
  /\ (PageantAvailable (win, e) = true <-> win <> 0)
  /\ snd (PageantWindow (0, e))
     = Some (if e =? noError then ErrWindowNotFound else ErrFindWindow (Errno e)).
Proof.
  unfold PageantAvailable, PageantWindow.
  split; [destruct (win =? 0), (negb (e =? noError)); reflexivity|].
  split; [|split].
  - destruct (Z.eqb_spec win 0) as [->|Hw].
    + destruct (negb (e =? noError)); simpl; (split; [discriminate | intros F; contradiction]).
    + simpl. split; [intros _; exact Hw | reflexivity].
  - destruct (Z.eqb_spec win 0) as [->|Hw].
    + destruct (negb (e =? noError)); simpl; (split; [discriminate | intros F; contradiction]).
    + simpl. split; [intros _; exact Hw | reflexivity].
  - simpl. destruct (e =? noError); reflexivity.
Qed.

Lemma PageantWindow_ok (found : Z * Z) :
  fst found <> 0 -> PageantWindow found = (fst found, None).
Proof.
  destruct found as [win e]. simpl. intros Hw.
  destruct (Z.eqb_spec win 0) as [E|_]; [contradiction | reflexivity].
Qed.

Lemma PageantWindow_missing (found : Z * Z) :
  fst found = 0 -> exists err : error, PageantWindow found = (0, Some err).
Proof.
  destruct found as [win e]. simpl. intros ->. simpl.
  destruct (negb (e =? noError)); eauto.
Qed.

Lemma PageantAvailable_iff (found : Z * Z) :
  PageantAvailable found = true <-> fst found <> 0.
Proof.
  destruct found as [win e]. exact (proj1 (proj2 (proj2 (PageantWindow_found win e)))).
Qed.

(** X2. [NewPageantConn] returns a connection exactly when both window
    lookups find a window, [CreateFileMapping] reports no error and
    [MapViewOfFile] returns a nonzero address. *)
Theorem NewPageantConn_connects_iff (os : Sys) (pr : Proc) :
  (exists (c : Conn) (w : Shared) (err : option error) (pr1 : Proc),
      NewPageantConn os pr = (Some (c, w), err, pr1))
  <-> (fst (findWindow1 os) <> 0
       /\ fst (findWindow2 os) <> 0
       /\ snd (createFileMapping os) = None
       /\ fst (mapViewOfFile os) <> 0).
Proof.
  unfold NewPageantConn, establishConn, MapViewOfFile.
  pose proof (PageantAvailable_iff (findWindow1 os)) as H1.
  destruct (PageantAvailable (findWindow1 os)); cbn [negb].
  - assert (Hw1 : fst (findWindow1 os) <> 0) by (apply H1; reflexivity).
    destruct (Z.eq_dec (fst (findWindow2 os)) 0) as [E2|N2].
    + destruct (PageantWindow_missing _ E2) as [err ->].
      split; [intros (c & w & e & pr1 & H); discriminate | tauto].
    + rewrite (PageantWindow_ok _ N2).
      destruct (createFileMapping os) as [file [e|]]; cbn [snd].
      * split; [intros (c & w & e' & pr1 & H); discriminate
               | intros (_ & _ & F & _); discriminate].
      * destruct (mapViewOfFile os) as [addr e1]; cbn [fst].
        destruct (Z.eqb_spec addr 0) as [->|Na].
        -- split; [intros (c & w & e' & pr1 & H); discriminate
                  | intros (_ & _ & _ & F); contradiction].
        -- split; [auto | intros _; eauto].
  - split; [intros (c & w & e & pr1 & H); discriminate|].
    intros (F & _). apply H1 in F. discriminate.
Qed.

(** X3. The connection [NewPageantConn] returns comes with no error; it
    holds the window of the second lookup, the handle and the address
    the system gave, the region name made from the process id and the
    stepped counter, an open, empty channel of capacity 10, an empty
    buffer, no end-of-stream flag and a free mutex; its mapping is 8192
    bytes long, with the handle open. *)
Theorem NewPageantConn_state (os : Sys) (pr pr1 : Proc) (c : Conn) (w : Shared)
        (err : option error) :
  NewPageantConn os pr = (Some (c, w), err, pr1) ->
  err = None
  /\ c = mkConn (fst (findWindow2 os)) (fst (createFileMapping os))
                (fst (mapViewOfFile os))
                (regionName (pid pr) (Uint64_Add (connUniqueID pr) 1))
                (Chan.make 10) [] false false
  /\ sharedMem c <> 0
  /\ (exists r : list byte,
        w = mkShared (Some r) true /\ Z.of_nat (length r) = agentMaxMsglen).
Proof.
  assert (Hfresh : exists r : list byte,
             mkShared (Some freshView) true = mkShared (Some r) true
             /\ Z.of_nat (length r) = agentMaxMsglen).
  { exists freshView. split; [reflexivity|].
    unfold freshView. rewrite repeat_length. reflexivity. }
  unfold NewPageantConn, establishConn, MapViewOfFile, PageantWindow.
  destruct (PageantAvailable (findWindow1 os)); cbn [negb]; [|discriminate].
  destruct (findWindow2 os) as [win e].
  destruct (win =? 0); [destruct (negb (e =? noError)); discriminate|].
  destruct (createFileMapping os) as [file [e'|]]; [discriminate|].
  destruct (mapViewOfFile os) as [addr e1].
  destruct (Z.eqb_spec addr 0) as [|Na]; [discriminate|].
  intros H. injection H as <- <- <- <-.
  split; [reflexivity|]. split; [reflexivity|]. split; [exact Na | exact Hfresh].
Qed.

Lemma NewPageantConn_state_witness :
  None = (None : option error)
  /\ Demo.conn
     = mkConn (fst (findWindow2 Demo.sys)) (fst (createFileMapping Demo.sys))
              (fst (mapViewOfFile Demo.sys))
              (regionName (pid Demo.proc) (Uint64_Add (connUniqueID Demo.proc) 1))
              (Chan.make 10) [] false false
  /\ sharedMem Demo.conn <> 0
  /\ (exists r : list byte,
        Demo.shared = mkShared (Some r) true /\ Z.of_nat (length r) = agentMaxMsglen).
Proof.
  apply (NewPageantConn_state Demo.sys Demo.proc (mkProc 4242 1)).
  reflexivity.
Defined.

(** X4. [NewPageantConn] never changes the process id, and steps the
    counter exactly when both window lookups find a window, whether or
    not a connection comes of it: a failure to create or map the file
    uses up a counter value, an absent window does not. *)
Theorem NewPageantConn_counter (os : Sys) (pr : Proc) :
  snd (NewPageantConn os pr)
  = mkProc (pid pr)
           (if PageantAvailable (findWindow1 os) && PageantAvailable (findWindow2 os)
            then Uint64_Add (connUniqueID pr) 1
            else connUniqueID pr).
Proof.
  unfold NewPageantConn, establishConn, PageantAvailable.
  destruct pr as [p i]. cbn [pid connUniqueID].
  destruct (snd (PageantWindow (findWindow1 os))); cbn [negb andb]; [reflexivity|].
  destruct (PageantWindow (findWindow2 os)) as [win [e|]]; cbn [snd]; [reflexivity|].
  destruct (createFileMapping os) as [file [e|]]; [reflexivity|].
  destruct (MapViewOfFile (mapViewOfFile os)) as [mem [e|]]; reflexivity.
Qed.

(** X5. When the file mapping is created but cannot be mapped,
    [establishConn] returns the mapping error (wrapping the last error,
    or [syscall.EINVAL] when that is 0) with the handle of the mapping
    still open and the connection as it was, so [NewPageantConn]
    returns no connection, and a [Close] of the connection it built
    returns [nil] at once: nothing closes the handle. *)
Theorem establishConn_map_failure (os : Sys) (pr : Proc) (file e : Z) :
  fst (findWindow1 os) <> 0 ->
  fst (findWindow2 os) <> 0 ->
  createFileMapping os = (file, None) ->
  mapViewOfFile os = (0, e) ->
  establishConn os newConn pr noShared
  = (Some (ErrMapSharedMem (errnoErr e)), newConn,
     mkProc (pid pr) (Uint64_Add (connUniqueID pr) 1), mkShared None true)
  /\ NewPageantConn os pr
     = (None, Some (ErrConnect (ErrMapSharedMem (errnoErr e))),
        mkProc (pid pr) (Uint64_Add (connUniqueID pr) 1))
  /\ forall eu ec : option Z,
       Close eu ec newConn (mkShared None true)
       = Ret (None, newConn, mkShared None true).
Proof.
  intros H1 H2 Hfile Hmap.
  assert (HE : establishConn os newConn pr noShared
               = (Some (ErrMapSharedMem (errnoErr e)), newConn,
                  mkProc (pid pr) (Uint64_Add (connUniqueID pr) 1), mkShared None true)).
  { unfold establishConn. rewrite (PageantWindow_ok _ H2), Hfile, Hmap. reflexivity. }
  split; [exact HE|]. split.
  - unfold NewPageantConn. rewrite (proj2 (PageantAvailable_iff _) H1), HE. reflexivity.
  - intros eu ec. reflexivity.
Qed.

Lemma establishConn_map_failure_witness :
  (establishConn Demo.sysUnmapped newConn Demo.proc noShared
   = (Some (ErrMapSharedMem (Errno 8)), newConn, mkProc 4242 1, mkShared None true)
   /\ NewPageantConn Demo.sysUnmapped Demo.proc
      = (None, Some (ErrConnect (ErrMapSharedMem (Errno 8))), mkProc 4242 1)
   /\ forall eu ec : option Z,
        Close eu ec newConn (mkShared None true)
        = Ret (None, newConn, mkShared None true))
  /\ (establishConn (mkSys (0x30a2e, 0) (0x30a2e, 0) (0x1f4, None) (0, 0))
                    newConn Demo.proc noShared
      = (Some (ErrMapSharedMem EINVAL), newConn, mkProc 4242 1, mkShared None true)
      /\ NewPageantConn (mkSys (0x30a2e, 0) (0x30a2e, 0) (0x1f4, None) (0, 0)) Demo.proc
         = (None, Some (ErrConnect (ErrMapSharedMem EINVAL)), mkProc 4242 1)
      /\ forall eu ec : option Z,
           Close eu ec newConn (mkShared None true)
           = Ret (None, newConn, mkShared None true)).
Proof.
  split.
  - apply (establishConn_map_failure Demo.sysUnmapped Demo.proc 0x1f4 8).
    + discriminate.
    + discriminate.
    + reflexivity.
    + reflexivity.
  - apply (establishConn_map_failure
             (mkSys (0x30a2e, 0) (0x30a2e, 0) (0x1f4, None) (0, 0)) Demo.proc 0x1f4 0).
    + discriminate.
    + discriminate.
    + reflexivity.
    + reflexivity.
Defined.

(** ** What Close does to a live connection *)

(** X6. On a connected connection with the mutex free and the channel
    open, [Close] returns: it closes the channel, keeping the chunks on
    it, and makes both system calls whatever the first answers; the
    view is unmapped when [UnmapViewOfFile] succeeds and the handle
    closed when [CloseHandle] succeeds, each on its own; the error is
    that of [UnmapViewOfFile] if it failed, else that of [CloseHandle];
    [sharedMem] and [sharedFile] are cleared only when both succeeded;
    buffer, flag, window and name stay and the mutex is free again. *)
Theorem Close_effect (eu ec : option Z) (c : Conn) (w : Shared) :
  sharedMem c <> 0 ->
  Mutex c = false ->
  Chan.closed (data c) = false ->
  exists (c1 : Conn) (w1 : Shared),
    Close eu ec c w
    = Ret (match eu, ec with
           | Some e, _ => Some (Errno e)
           | None, Some e => Some (Errno e)
           | None, None => None
           end, c1, w1)
    /\ view w1 = match eu with None => None | Some _ => view w end
    /\ fileOpen w1 = match ec with None => false | Some _ => fileOpen w end
    /\ data c1 = Chan.mk (Chan.queue (data c)) true (Chan.cap (data c))
    /\ sharedMem c1 = match eu, ec with None, None => 0 | _, _ => sharedMem c end
    /\ sharedFile c1
       = match eu, ec with None, None => InvalidHandle | _, _ => sharedFile c end
    /\ buf c1 = buf c /\ eof c1 = eof c
    /\ window c1 = window c /\ mapName c1 = mapName c
    /\ Mutex c1 = false.
Proof.
  intros Hmem Hmu Hopen.
  unfold Close, Close_enter.
  destruct (Z.eqb_spec (sharedMem c) 0) as [E|_]; [contradiction|].
  rewrite (Lock_free c Hmu). unfold Chan.close. cbn [data set_Mutex]. rewrite Hopen.
  unfold Close_release.
  destruct eu as [e|], ec as [e'|]; eexists _, _; (split; [reflexivity|]);
    cbn; repeat split.
Qed.

Lemma Close_effect_witness :
  exists (c1 : Conn) (w1 : Shared),
    Close None (Some Demo.invalidHandle) (fst Demo.answered) (snd Demo.answered)
    = Ret (Some (Errno Demo.invalidHandle), c1, w1)
    /\ view w1 = None
    /\ fileOpen w1 = fileOpen (snd Demo.answered)
    /\ data c1 = Chan.mk (Chan.queue (data (fst Demo.answered))) true
                         (Chan.cap (data (fst Demo.answered)))
    /\ sharedMem c1 = sharedMem (fst Demo.answered)
    /\ sharedFile c1 = sharedFile (fst Demo.answered)
    /\ buf c1 = buf (fst Demo.answered) /\ eof c1 = eof (fst Demo.answered)
    /\ window c1 = window (fst Demo.answered)
    /\ mapName c1 = mapName (fst Demo.answered)
    /\ Mutex c1 = false.
Proof.
  apply (Close_effect None (Some Demo.invalidHandle) (fst Demo.answered)
                      (snd Demo.answered)).
  - discriminate.
  - reflexivity.
  - reflexivity.
Defined.

(** X7. When [UnmapViewOfFile] succeeds and [CloseHandle] fails,
    [Close] returns the error with [sharedMem] still pointing at the
    view it has just unmapped: a later [Write] of a request of valid
    size passes the connection check and touches unmapped memory. *)
Theorem Write_after_half_Close (e : Z) (c : Conn) (w : Shared) (p : list byte) :
  sharedMem c <> 0 ->
  Mutex c = false ->
  Chan.closed (data c) = false ->
  0 < Z.of_nat (length p) <= agentMaxMsglen ->
  exists (c1 : Conn) (w1 : Shared),
    Close None (Some e) c w = Ret (Some (Errno e), c1, w1)
    /\ forall ag : Agent, Write ag c1 w1 p = Faults.
Proof.
  intros Hmem Hmu Hopen Hsize.
  destruct (Close_effect None (Some e) c w Hmem Hmu Hopen)
    as (c1 & w1 & HC & Hview & _ & _ & Hmem1 & _ & _ & _ & _ & _ & Hmu1).
  exists c1, w1. split; [exact HC|].
  intros ag. rewrite Write_sized by assumption.
  rewrite (Lock_free c1 Hmu1).
  change (sharedMem (set_Mutex c1 true)) with (sharedMem c1).
  rewrite Hmem1.
  destruct (Z.eqb_spec (sharedMem c) 0) as [E|_]; [contradiction|].
  rewrite Hview. reflexivity.
Qed.

Lemma Write_after_half_Close_witness :
  exists (c1 : Conn) (w1 : Shared),
    Close None (Some Demo.invalidHandle) Demo.conn Demo.shared
    = Ret (Some (Errno Demo.invalidHandle), c1, w1)
    /\ forall ag : Agent, Write ag c1 w1 Demo.ping = Faults.
Proof.
  apply (Write_after_half_Close Demo.invalidHandle Demo.conn Demo.shared Demo.ping).
  - discriminate.
  - reflexivity.
  - reflexivity.
  - vm_compute. split; [reflexivity | discriminate].
Defined.

(** ** A Write that gets its reply *)

Lemma store_fits (r p : list byte) :
  (length p <= length r)%nat -> store r p = Some (p ++ skipn (length p) r).
Proof.
  intros Hle. unfold store, toSlice.
  destruct (Nat.leb_spec (length p) (length r)) as [_|F]; [|lia].
  rewrite copy_full; [reflexivity|]. rewrite length_firstn. lia.
Qed.

Lemma toSlice_fits (r : list byte) (n : nat) :
  (n <= length r)%nat -> toSlice r n = Some (firstn n r).
Proof.
  intros Hle. unfold toSlice.
  destruct (Nat.leb_spec n (length r)) as [_|F]; [reflexivity | lia].
Qed.

(** Up to the send on [c.data]. *)
Lemma Write_answered (ag : Agent) (c : Conn) (w : Shared) (p r r2 : list byte)
      (result L : Z) (err : option error) :
  0 < Z.of_nat (length p) <= agentMaxMsglen ->
  Mutex c = false ->
  sharedMem c <> 0 ->
  view w = Some r ->
  (length p <= length r)%nat ->
  sendMessage ag c (namePayload (mapName c)) (p ++ skipn (length p) r)
  = (result, err, r2) ->
  result <> 0 ->
  Uint32 r2 = Some L ->
  L <= agentMaxMsglen - 4 ->
  (4 + Z.to_nat L <= length r2)%nat ->
  Write ag c w p
  = match Chan.send (data c) (firstn (4 + Z.to_nat L) r2) with
    | Chan.SendPanic => Panics SendOnClosedChannel
    | Chan.SendBlock => Blocks
    | Chan.SendOk ch =>
        Ret (length p, None, set_data c ch, mkShared (Some r2) (fileOpen w))
    end.
Proof.
  intros Hsize Hmu Hmem Hview Hle Hsend Hres HL Hfit Hlen.
  rewrite Write_sized by assumption.
  rewrite (Lock_free c Hmu).
  change (sharedMem (set_Mutex c true)) with (sharedMem c).
  change (mapName (set_Mutex c true)) with (mapName c).
  change (data (set_Mutex c true)) with (data c).
  destruct (Z.eqb_spec (sharedMem c) 0) as [E|_]; [contradiction|].
  rewrite Hview, (store_fits r p Hle), sendMessage_Mutex, Hsend.
  destruct (Z.eqb_spec result 0) as [E|_]; [contradiction|].
  rewrite (Uint32_toSlice r2 L HL).
  destruct (Z.gtb_spec L (agentMaxMsglen - 4)) as [F|_]; [lia|].
  rewrite (toSlice_fits r2 _ Hlen).
  rewrite copy_full by (rewrite repeat_length, length_firstn; lia).
  cbv zeta.
  destruct (Chan.send (data c) (firstn (4 + Z.to_nat L) r2)) as [ch| |]; try reflexivity.
  replace (Unlock (set_data (set_Mutex c true) ch)) with (set_data c ch);
    [reflexivity|].
  unfold Unlock, set_data, set_Mutex. simpl. rewrite Hmu. reflexivity.
Qed.

(** X8. After a [Close] that failed in [UnmapViewOfFile], the view is
    still mapped and [sharedMem] still set, but the channel is closed:
    a [Write] of a valid request hands it to the agent and, when the
    agent answers with a well-formed reply, panics on the send. *)
Theorem Write_after_failed_Close_panics
        (ag : Agent) (e : Z) (ec : option Z) (c : Conn) (w : Shared)
        (p r r2 : list byte) (result L : Z) (err : option error) :
  0 < Z.of_nat (length p) <= agentMaxMsglen ->
  Mutex c = false ->
  sharedMem c <> 0 ->
  Chan.closed (data c) = false ->
  view w = Some r ->
  (length p <= length r)%nat ->
  sendMessage ag c (namePayload (mapName c)) (p ++ skipn (length p) r)
  = (result, err, r2) ->
  result <> 0 ->
  Uint32 r2 = Some L ->
  L <= agentMaxMsglen - 4 ->
  (4 + Z.to_nat L <= length r2)%nat ->
  exists (c1 : Conn) (w1 : Shared),
    Close (Some e) ec c w = Ret (Some (Errno e), c1, w1)
    /\ Write ag c1 w1 p = Panics SendOnClosedChannel.
Proof.
  intros Hsize Hmu Hmem Hopen Hview Hle Hsend Hres HL Hfit Hlen.
  destruct (Close_effect (Some e) ec c w Hmem Hmu Hopen)
    as (c1 & w1 & HC & Hview1 & _ & Hdata & Hmem1 & _ & _ & _ & Hwin & Hname & Hmu1).
  exists c1, w1. split; [exact HC|].
  rewrite (Write_answered ag c1 w1 p r r2 result L err); try assumption.
  - unfold Chan.send. rewrite Hdata. reflexivity.
  - rewrite Hmem1. exact Hmem.
  - rewrite Hview1. exact Hview.
  - rewrite <- Hsend. unfold sendMessage. rewrite Hname, Hwin. reflexivity.
Qed.

Lemma Write_after_failed_Close_panics_witness :
  exists (c1 : Conn) (w1 : Shared),
    Close (Some Demo.invalidAddress) None Demo.conn Demo.shared
    = Ret (Some (Errno Demo.invalidAddress), c1, w1)
    /\ Write (Demo.agent 1 0 Demo.pong) c1 w1 Demo.ping = Panics SendOnClosedChannel.
Proof.
  apply (Write_after_failed_Close_panics
           (Demo.agent 1 0 Demo.pong) Demo.invalidAddress None Demo.conn Demo.shared
           Demo.ping freshView (Demo.pong ++ skipn 8 freshView) 1 4 None).
  - vm_compute. split; [reflexivity | discriminate].
  - reflexivity.
  - discriminate.
  - reflexivity.
  - reflexivity.
  - vm_compute. lia.
  - vm_compute. reflexivity.
  - discriminate.
  - reflexivity.
  - vm_compute. discriminate.
  - vm_compute. lia.
Defined.

(** X9. A [Write] of a valid request on a connected connection with an
    open channel, answered with a nonzero reply code and a well-formed
    reply, returns [len(p)] and [nil] with the reply appended to the
    channel when the channel holds fewer chunks than its capacity, and
    parks the caller on the send, the mutex still held, when the
    channel is full. *)
Theorem Write_capacity
        (ag : Agent) (c : Conn) (w : Shared) (p r r2 : list byte)
        (result L : Z) (err : option error) :
  0 < Z.of_nat (length p) <= agentMaxMsglen ->
  Mutex c = false ->
  sharedMem c <> 0 ->
  Chan.closed (data c) = false ->
  view w = Some r ->
  (length p <= length r)%nat ->
  sendMessage ag c (namePayload (mapName c)) (p ++ skipn (length p) r)
  = (result, err, r2) ->
  result <> 0 ->
  Uint32 r2 = Some L ->
  L <= agentMaxMsglen - 4 ->
  (4 + Z.to_nat L <= length r2)%nat ->
  ((length (Chan.queue (data c)) < Chan.cap (data c))%nat ->
   Write ag c w p
   = Ret (length p, None,
          set_data c (Chan.mk (Chan.queue (data c) ++ [firstn (4 + Z.to_nat L) r2])
                              false (Chan.cap (data c))),
          mkShared (Some r2) (fileOpen w)))
  /\ ((Chan.cap (data c) <= length (Chan.queue (data c)))%nat ->
      Write ag c w p = Blocks).
Proof.
  intros Hsize Hmu Hmem Hopen Hview Hle Hsend Hres HL Hfit Hlen.
  rewrite (Write_answered ag c w p r r2 result L err) by assumption.
  unfold Chan.send. rewrite Hopen.
  split; intros Hq.
  - destruct (Nat.ltb_spec (length (Chan.queue (data c))) (Chan.cap (data c)));
      [reflexivity | lia].
  - destruct (Nat.ltb_spec (length (Chan.queue (data c))) (Chan.cap (data c)));
      [lia | reflexivity].
Qed.

Lemma Write_capacity_witness :
  Write (Demo.agent 1 0 Demo.pong) Demo.conn Demo.shared Demo.ping
  = Ret (length Demo.ping, None,
         set_data Demo.conn
                  (Chan.mk (Chan.queue (data Demo.conn)
                            ++ [firstn (4 + Z.to_nat 4) (Demo.pong ++ skipn 8 freshView)])
                           false (Chan.cap (data Demo.conn))),
         mkShared (Some (Demo.pong ++ skipn 8 freshView)) (fileOpen Demo.shared))
  /\ Write (Demo.agent 1 0 Demo.pong) (fst Demo.full) (snd Demo.full) Demo.ping = Blocks.
Proof.
  split.
  - apply (Write_capacity (Demo.agent 1 0 Demo.pong) Demo.conn Demo.shared
             Demo.ping freshView (Demo.pong ++ skipn 8 freshView) 1 4 None).
    + vm_compute. split; [reflexivity | discriminate].
    + reflexivity.
    + discriminate.
    + reflexivity.
    + reflexivity.
    + vm_compute. lia.
    + vm_compute. reflexivity.
    + discriminate.
    + reflexivity.
    + vm_compute. discriminate.
    + vm_compute. lia.
    + vm_compute. lia.
  - apply (Write_capacity (Demo.agent 1 0 Demo.pong) (fst Demo.full) (snd Demo.full)
             Demo.ping (Demo.pong ++ skipn 8 freshView)
             (Demo.pong ++ skipn 8 freshView) 1 4 None).
    + vm_compute. split; [reflexivity | discriminate].
    + reflexivity.
    + discriminate.
    + reflexivity.
    + vm_compute. reflexivity.
    + vm_compute. lia.
    + vm_compute. reflexivity.
    + discriminate.
    + vm_compute. reflexivity.
    + vm_compute. discriminate.
    + vm_compute. lia.
    + vm_compute. lia.
Defined.

(** ** Every way a Read can end *)

Lemma length_zero_nil (l : list byte) : (length l =? 0)%nat = true <-> l = [].
Proof.
  destruct l; simpl; split; intros H; try reflexivity; discriminate.
Qed.

Lemma Read_cases (c c1 : Conn) (p p1 : list byte) (n : nat) (err : option error) :
  Read c p = Ret (n, err, p1, c1) ->
  (err = Some EOF /\ n = 0%nat /\ p1 = p /\ c1 = c /\ eof c = true)
  \/ (err = Some ErrNotConnected /\ n = 0%nat /\ p1 = p /\ c1 = c
      /\ eof c = false /\ sharedMem c = 0)
  \/ (err = Some EOF /\ n = 0%nat /\ p1 = p /\ c1 = set_eof (set_buf c []) true
      /\ eof c = false /\ sharedMem c <> 0 /\ buf c = []
      /\ Chan.queue (data c) = [] /\ Chan.closed (data c) = true)
  \/ (err = None /\ eof c = false /\ sharedMem c <> 0 /\ buf c = []
      /\ exists (v : list byte) (q : list (list byte)),
           Chan.queue (data c) = v :: q
           /\ n = Nat.min (length p) (length v)
           /\ p1 = firstn n v ++ skipn n p
           /\ c1 = set_buf (set_data c (Chan.mk q (Chan.closed (data c))
                                                (Chan.cap (data c))))
                           (skipn n v))
  \/ (err = None /\ eof c = false /\ sharedMem c <> 0 /\ buf c <> []
      /\ n = Nat.min (length p) (length (buf c))
      /\ p1 = firstn n (buf c) ++ skipn n p
      /\ c1 = set_buf c (skipn n (buf c))).
Proof.
  unfold Read.
  destruct (eof c) eqn:Heof.
  { intros H. injection H as <- <- <- <-. left. repeat split; assumption. }
  destruct (Z.eqb_spec (sharedMem c) 0) as [Hmem|Hmem].
  { intros H. injection H as <- <- <- <-. right. left. repeat split; assumption. }
  destruct (length (buf c) =? 0)%nat eqn:Hlen.
  - apply length_zero_nil in Hlen.
    unfold Read_recv, Chan.recv.
    destruct (Chan.queue (data c)) as [|v q] eqn:Hq.
    + destruct (Chan.closed (data c)) eqn:Hcl; [|discriminate].
      intros H. injection H as <- <- <- <-. right. right. left.
      repeat split; assumption.
    + unfold Read_copy, copy. cbn [buf set_buf].
      intros H. injection H as <- <- <- <-. right. right. right. left.
      repeat split; try assumption. exists v, q. repeat split.
  - assert (Hbuf : buf c <> []).
    { intros E. apply length_zero_nil in E. congruence. }
    unfold Read_copy, copy.
    intros H. injection H as <- <- <- <-. right. right. right. right.
    repeat split; assumption.
Qed.

(** X10. [Read] parks the caller exactly when the connection is
    connected, the end-of-stream flag unset, [c.buf] empty and the
    channel empty and open; it never panics and never touches the
    mapping. *)
Theorem Read_Blocks_iff (c : Conn) (p : list byte) :
  (Read c p = Blocks
   <-> eof c = false /\ sharedMem c <> 0 /\ buf c = []
       /\ Chan.queue (data c) = [] /\ Chan.closed (data c) = false)
  /\ (forall e : panic, Read c p <> Panics e)
  /\ Read c p <> Faults.
Proof.
  unfold Read, Read_recv, Read_copy, Chan.recv.
  destruct (eof c).
  { split; [split; [discriminate | intros (F & _); discriminate]|].
    split; [intros e|]; discriminate. }
  destruct (Z.eqb_spec (sharedMem c) 0) as [Hmem|Hmem].
  { split; [split; [discriminate | intros (_ & F & _); contradiction]|].
    split; [intros e|]; discriminate. }
  destruct (buf c) as [|b bs]; cbn [length Nat.eqb].
  - destruct (Chan.queue (data c)) as [|v q].
    + destruct (Chan.closed (data c)).
      * split; [split; [discriminate | intros (_ & _ & _ & _ & F); discriminate]|].
        split; [intros e|]; discriminate.
      * split; [split; auto|]. split; [intros e|]; discriminate.
    + destruct (copy p v).
      split; [split; [discriminate | intros (_ & _ & _ & F & _); discriminate]|].
      split; [intros e|]; discriminate.
  - destruct (copy p (b :: bs)).
    split; [split; [discriminate | intros (_ & _ & F & _); discriminate]|].
    split; [intros e|]; discriminate.
Qed.

(** X11. [Read] returns end-of-stream exactly when the flag is set
    already or the connection is connected with [c.buf] empty and the
    channel empty and closed.  It then returns 0, leaves [p] alone and
    has the flag set, and from then on every [Read] returns
    end-of-stream with the connection unchanged, whatever else
    happened to it. *)
Theorem Read_EOF_iff (c : Conn) (p : list byte) :
  ((exists (n : nat) (p1 : list byte) (c1 : Conn),
       Read c p = Ret (n, Some EOF, p1, c1))
   <-> (eof c = true
        \/ (sharedMem c <> 0 /\ buf c = []
            /\ Chan.queue (data c) = [] /\ Chan.closed (data c) = true)))
  /\ (forall (n : nat) (p1 : list byte) (c1 : Conn),
        Read c p = Ret (n, Some EOF, p1, c1) ->
        n = 0%nat /\ p1 = p /\ eof c1 = true
        /\ forall p' : list byte, Read c1 p' = Ret (0%nat, Some EOF, p', c1)).
Proof.
  split; [split|].
  - intros (n & p1 & c1 & HR).
    destruct (Read_cases c c1 p p1 n (Some EOF) HR)
      as [H|[H|[H|[H|H]]]].
    + left. tauto.
    + destruct H as (F & _). discriminate.
    + right. tauto.
    + destruct H as (F & _). discriminate.
    + destruct H as (F & _). discriminate.
  - intros [Heof | (Hmem & Hbuf & Hq & Hcl)].
    + exists 0%nat, p, c. unfold Read. rewrite Heof. reflexivity.
    + destruct (eof c) eqn:Heof.
      * exists 0%nat, p, c. unfold Read. rewrite Heof. reflexivity.
      * exists 0%nat, p, (set_eof (set_buf c []) true).
        unfold Read, Read_recv, Chan.recv. rewrite Heof, Hbuf, Hq, Hcl.
        destruct (Z.eqb_spec (sharedMem c) 0) as [E|_]; [contradiction | reflexivity].
  - intros n p1 c1 HR.
    assert (Heof1 : eof c1 = true).
    { destruct (Read_cases c c1 p p1 n (Some EOF) HR) as [H|[H|[H|[H|H]]]].
      - destruct H as (_ & _ & _ & -> & H). exact H.
      - destruct H as (F & _). discriminate.
      - destruct H as (_ & _ & _ & -> & _). reflexivity.
      - destruct H as (F & _). discriminate.
      - destruct H as (F & _). discriminate. }
    destruct (Read_cases c c1 p p1 n (Some EOF) HR) as [H|[H|[H|[H|H]]]];
      try (destruct H as (F & _); discriminate);
      destruct H as (_ & -> & -> & _);
      (split; [reflexivity|]; split; [reflexivity|]; split; [exact Heof1|]);
      intros p'; unfold Read; rewrite Heof1; reflexivity.
Qed.

Lemma set_buf_same (c : Conn) : set_buf c (buf c) = c.
Proof. destruct c; reflexivity. Qed.

(** X12. A [Read] into a buffer of length 0 on a live connection
    returns 0 and [nil]; with bytes left in [c.buf] it changes nothing,
    but with [c.buf] empty it still takes the next chunk off the
    channel into [c.buf], freeing a place on the channel. *)
Theorem Read_empty_buffer (c : Conn) :
  eof c = false ->
  sharedMem c <> 0 ->
  (buf c <> [] -> Read c [] = Ret (0%nat, None, [], c))
  /\ (forall (v : list byte) (q : list (list byte)),
        buf c = [] ->
        Chan.queue (data c) = v :: q ->
        Read c []
        = Ret (0%nat, None, [],
               set_buf (set_data c (Chan.mk q (Chan.closed (data c))
                                            (Chan.cap (data c))))
                       v)).
Proof.
  intros Heof Hmem. split.
  - intros Hbuf. rewrite (Read_from_buf c Heof Hmem [] Hbuf). cbn.
    rewrite set_buf_same. reflexivity.
  - intros v q Hbuf Hq. rewrite (Read_from_queue c Heof Hmem [] v q Hbuf Hq).
    reflexivity.
Qed.

Lemma Read_empty_buffer_witness :
  Read (fst Demo.answered) []
  = Ret (0%nat, None, [],
         set_buf (set_data (fst Demo.answered)
                           (Chan.mk [] (Chan.closed (data (fst Demo.answered)))
                                    (Chan.cap (data (fst Demo.answered)))))
                 Demo.pong).
Proof.
  apply (proj2 (Read_empty_buffer (fst Demo.answered) eq_refl
                  (fun F => match Z.eqb_neq 0x26a0000 0 with
                            | conj H _ => H eq_refl F
                            end))
               Demo.pong []).
  - reflexivity.
  - reflexivity.
Defined.

(** X13. Whatever a [Read] returns, the caller's buffer keeps its
    length, bytes from position [n] on are untouched, [n] is at most
    [len(p)], and with an error [n] is 0 and the buffer is as it was.
    A [Read] changes nothing of the connection but [c.buf], the
    end-of-stream flag and the contents of the channel. *)
Theorem Read_frame (c c1 : Conn) (p p1 : list byte) (n : nat) (err : option error) :
  Read c p = Ret (n, err, p1, c1) ->
  length p1 = length p
  /\ (n <= length p)%nat
  /\ skipn n p1 = skipn n p
  /\ (err <> None -> n = 0%nat /\ p1 = p)
  /\ window c1 = window c /\ sharedFile c1 = sharedFile c
  /\ sharedMem c1 = sharedMem c /\ mapName c1 = mapName c
  /\ Mutex c1 = Mutex c
  /\ Chan.cap (data c1) = Chan.cap (data c)
  /\ Chan.closed (data c1) = Chan.closed (data c).
Proof.
  assert (Hcopy : forall (chunk : list byte) (k : nat),
             k = Nat.min (length p) (length chunk) ->
             length (firstn k chunk ++ skipn k p) = length p
             /\ (k <= length p)%nat
             /\ skipn k (firstn k chunk ++ skipn k p) = skipn k p).
  { intros chunk k ->. split; [|split].
    - rewrite length_app, length_firstn, length_skipn. lia.
    - lia.
    - rewrite skipn_app, length_firstn.
      rewrite skipn_all2 by (rewrite length_firstn; lia).
      replace (Nat.min (length p) (length chunk)
               - Nat.min (Nat.min (length p) (length chunk)) (length chunk))%nat
        with 0%nat by lia.
      reflexivity. }
  intros HR.
  destruct (Read_cases c c1 p p1 n err HR) as [H|[H|[H|[H|H]]]].
  - destruct H as (-> & -> & -> & -> & _).
    split; [reflexivity|]. split; [apply Nat.le_0_l|]. repeat split.
  - destruct H as (-> & -> & -> & -> & _).
    split; [reflexivity|]. split; [apply Nat.le_0_l|]. repeat split.
  - destruct H as (-> & -> & -> & -> & _).
    split; [reflexivity|]. split; [apply Nat.le_0_l|]. repeat split.
  - destruct H as (-> & _ & _ & _ & v & q & _ & Hn & -> & ->).
    destruct (Hcopy v n Hn) as (H1 & H2 & H3).
    split; [exact H1|]. split; [exact H2|]. split; [exact H3|].
    split; [intros F; exfalso; apply F; reflexivity|]. repeat split.
  - destruct H as (-> & _ & _ & _ & Hn & -> & ->).
    destruct (Hcopy (buf c) n Hn) as (H1 & H2 & H3).
    split; [exact H1|]. split; [exact H2|]. split; [exact H3|].
    split; [intros F; exfalso; apply F; reflexivity|]. repeat split.
Qed.

Lemma Read_frame_witness :
  length [x00; x00; x00] = length [xff; xff; xff]
  /\ (3 <= length [xff; xff; xff])%nat
  /\ skipn 3 [x00; x00; x00] = skipn 3 [xff; xff; xff]
  /\ ((None : option error) <> None -> 3%nat = 0%nat /\ [x00; x00; x00] = [xff; xff; xff])
  /\ window (set_buf (set_data (fst Demo.answered) (Chan.make 10)) [x04; x70; x6f; x6e; x67])
     = window (fst Demo.answered)
  /\ sharedFile (set_buf (set_data (fst Demo.answered) (Chan.make 10)) [x04; x70; x6f; x6e; x67])
     = sharedFile (fst Demo.answered)
  /\ sharedMem (set_buf (set_data (fst Demo.answered) (Chan.make 10)) [x04; x70; x6f; x6e; x67])
     = sharedMem (fst Demo.answered)
  /\ mapName (set_buf (set_data (fst Demo.answered) (Chan.make 10)) [x04; x70; x6f; x6e; x67])
     = mapName (fst Demo.answered)
  /\ Mutex (set_buf (set_data (fst Demo.answered) (Chan.make 10)) [x04; x70; x6f; x6e; x67])
     = Mutex (fst Demo.answered)
  /\ Chan.cap (data (set_buf (set_data (fst Demo.answered) (Chan.make 10))
                             [x04; x70; x6f; x6e; x67]))
     = Chan.cap (data (fst Demo.answered))
  /\ Chan.closed (data (set_buf (set_data (fst Demo.answered) (Chan.make 10))
                                [x04; x70; x6f; x6e; x67]))
     = Chan.closed (data (fst Demo.answered)).
Proof.
  apply (Read_frame (fst Demo.answered)
                    (set_buf (set_data (fst Demo.answered) (Chan.make 10))
                             [x04; x70; x6f; x6e; x67])
                    [xff; xff; xff] [x00; x00; x00] 3 None).
  vm_compute. reflexivity.
Defined.

(** ** The length prefix *)

Lemma lor_shiftl_add (a b n : Z) :
  0 <= n -> 0 <= a < 2 ^ n -> Z.lor a (Z.shiftl b n) = a + b * 2 ^ n.
Proof.
  intros Hn Ha.
  pose proof (Z.add_lor_land a (Z.shiftl b n)) as H.
  assert (Hland : Z.land a (Z.shiftl b n) = 0).
  { apply Z.bits_inj'. intros m Hm.
    rewrite Z.land_spec, Z.bits_0.
    destruct (Z.lt_ge_cases m n) as [Hlt|Hge].
    - rewrite Z.shiftl_spec_low by assumption. apply andb_false_r.
    - rewrite <- (Z.mod_small a (2 ^ n)) by assumption.
      rewrite Z.mod_pow2_bits_high by lia. reflexivity. }
  rewrite Hland, Z.add_0_r in H. rewrite H, Z.shiftl_mul_pow2 by assumption. reflexivity.
Qed.

Lemma byteZ_range (b : byte) : 0 <= byteZ b < 2 ^ 8.
Proof.
  unfold byteZ. pose proof (Byte.to_N_bounded b). change (2 ^ 8) with 256. lia.
Qed.

(** X14. [Uint32] reads the first four bytes as a big-endian number:
    [b0 * 2^24 + b1 * 2^16 + b2 * 2^8 + b3], between 0 and [2^32 - 1],
    whatever follows them; it fails exactly on fewer than four
    bytes. *)
Theorem Uint32_value :
  (forall (b0 b1 b2 b3 : byte) (rest : list byte),
      Uint32 (b0 :: b1 :: b2 :: b3 :: rest)
      = Some (byteZ b0 * 2 ^ 24 + byteZ b1 * 2 ^ 16 + byteZ b2 * 2 ^ 8 + byteZ b3))
  /\ (forall (r : list byte) (L : Z), Uint32 r = Some L -> 0 <= L < 2 ^ 32)
  /\ (forall r : list byte, Uint32 r = None <-> (length r < 4)%nat).
Proof.
  assert (Hval : forall (b0 b1 b2 b3 : byte) (rest : list byte),
             Uint32 (b0 :: b1 :: b2 :: b3 :: rest)
             = Some (byteZ b0 * 2 ^ 24 + byteZ b1 * 2 ^ 16 + byteZ b2 * 2 ^ 8 + byteZ b3)).
  { intros b0 b1 b2 b3 rest. cbn [Uint32]. f_equal.
    pose proof (byteZ_range b0). pose proof (byteZ_range b1).
    pose proof (byteZ_range b2). pose proof (byteZ_range b3).
    rewrite (lor_shiftl_add (byteZ b3) (byteZ b2) 8) by lia.
    rewrite (lor_shiftl_add _ (byteZ b1) 16) by lia.
    rewrite (lor_shiftl_add _ (byteZ b0) 24) by lia.
    ring. }
  split; [exact Hval|]. split.
  - intros r L. destruct r as [|b0 [|b1 [|b2 [|b3 rest]]]]; try discriminate.
    rewrite Hval. intros H. injection H as <-.
    pose proof (byteZ_range b0). pose proof (byteZ_range b1).
    pose proof (byteZ_range b2). pose proof (byteZ_range b3). lia.
  - intros r. destruct r as [|b0 [|b1 [|b2 [|b3 rest]]]]; cbn [Uint32 length];
      split; intros H; try reflexivity; try lia; discriminate.
Qed.

(** ** Every error a Write can return *)

Lemma Write_error_cases (ag : Agent) (c c1 : Conn) (w w1 : Shared) (p : list byte)
      (n : nat) (e : error) :
  Write ag c w p = Ret (n, Some e, c1, w1) ->
  n = 0%nat /\ c1 = c
  /\ ((e = ErrRequestTooLarge (Z.of_nat (length p)) agentMaxMsglen
       /\ Z.of_nat (length p) > agentMaxMsglen /\ w1 = w)
      \/ (e = ErrEmptyMessage /\ length p = 0%nat /\ w1 = w)
      \/ (e = ErrNotConnected /\ 0 < Z.of_nat (length p) <= agentMaxMsglen
          /\ sharedMem c = 0 /\ w1 = w)
      \/ (0 < Z.of_nat (length p) <= agentMaxMsglen /\ sharedMem c <> 0
          /\ exists (r r2 : list byte) (result : Z) (err : option error),
               view w = Some r
               /\ sendMessage ag c (namePayload (mapName c)) (p ++ skipn (length p) r)
                  = (result, err, r2)
               /\ w1 = mkShared (Some r2) (fileOpen w)
               /\ ((result = 0 /\ err = None /\ e = ErrRefused)
                   \/ (result = 0
                       /\ exists cause : error, err = Some cause /\ e = ErrSendFailed cause)
                   \/ (result <> 0
                       /\ exists L : Z,
                            Uint32 r2 = Some L /\ L > agentMaxMsglen - 4
                            /\ e = ErrResponseTooLarge ((L + 4) mod 2 ^ 32)
                                                       agentMaxMsglen)))).
Proof.
  unfold Write.
  destruct (Z.gtb_spec (Z.of_nat (length p)) agentMaxMsglen) as [Hbig|Hhi].
  { intros H. injection H as <- <- <- <-.
    split; [reflexivity|]. split; [reflexivity|]. left. repeat split. lia. }
  destruct (Nat.eqb_spec (length p) 0) as [H0|Hlo].
  { intros H. injection H as <- <- <- <-.
    split; [reflexivity|]. split; [reflexivity|]. right. left. repeat split. exact H0. }
  assert (Hsize : 0 < Z.of_nat (length p) <= agentMaxMsglen) by lia.
  destruct (Lock c) as [c2|] eqn:HL; [|discriminate].
  pose proof (Unlock_Lock c c2 HL) as HU.
  assert (Hc2 : c2 = set_Mutex c true).
  { revert HL. unfold Lock. destruct (Mutex c); [discriminate|]. congruence. }
  subst c2.
  change (sharedMem (set_Mutex c true)) with (sharedMem c).
  change (mapName (set_Mutex c true)) with (mapName c).
  destruct (Z.eqb_spec (sharedMem c) 0) as [Hmem|Hmem].
  { intros H. injection H as <- <- <- <-.
    split; [reflexivity|]. split; [exact HU|]. right. right. left. repeat split; lia. }
  destruct (view w) as [r|] eqn:Hview; [|discriminate].
  destruct (store r p) as [r1|] eqn:Hstore; [|discriminate].
  destruct (store_spec r p r1 Hstore) as [Hle ->].
  rewrite sendMessage_Mutex.
  destruct (sendMessage ag c (namePayload (mapName c)) (p ++ skipn (length p) r))
    as [[result err] r2] eqn:Hsend.
  destruct (Z.eqb_spec result 0) as [Hres|Hres].
  { destruct err as [cause|]; intros H; injection H as <- <- <- <-;
      (split; [reflexivity|]); (split; [exact HU|]);
      right; right; right; (split; [exact Hsize|]); (split; [exact Hmem|]);
      exists r, r2, result; eexists; (split; [reflexivity|]);
      (split; [exact Hsend|]); (split; [reflexivity|]).
    - right. left. split; [exact Hres|]. exists cause. split; reflexivity.
    - left. repeat split. exact Hres. }
  destruct (toSlice r2 4) as [s4|] eqn:H4; [|discriminate].
  destruct (toSlice_spec r2 4 s4 H4) as (Hle4 & -> & _).
  cbn [option_map]. rewrite Uint32_firstn by lia.
  destruct (Uint32 r2) as [L|] eqn:HLen; [|discriminate].
  destruct (Z.gtb_spec L (agentMaxMsglen - 4)) as [Hover|Hfit].
  { intros H. injection H as <- <- <- <-.
    split; [reflexivity|]. split; [exact HU|].
    right. right. right. split; [exact Hsize|]. split; [exact Hmem|].
    exists r, r2, result, err. split; [reflexivity|]. split; [exact Hsend|].
    split; [reflexivity|]. right. right. split; [exact Hres|].
    exists L. split; [exact HLen|]. split; [lia | reflexivity]. }
  destruct (toSlice r2 (4 + Z.to_nat L)); [|discriminate].
  destruct (Chan.send _ _); discriminate.
Qed.

(** X15. A [Write] that returns an error returns 0 and leaves the
    connection as it was, the mutex free again.  The error is one of
    six: the two size errors and the not-connected error, with the
    mapping untouched; or, on a connected connection after the agent
    was handed the request, request-refused (reply code 0, no error),
    failed-to-send (reply code 0 with an error) or response-too-large
    (nonzero reply code, declared length above 8188), with the mapping
    as the agent left it. *)
Theorem Write_errors (ag : Agent) (c c1 : Conn) (w w1 : Shared) (p : list byte)
        (n : nat) (e : error) :
  Write ag c w p = Ret (n, Some e, c1, w1) ->
  n = 0%nat /\ c1 = c /\ fileOpen w1 = fileOpen w
  /\ ((w1 = w
       /\ (e = ErrRequestTooLarge (Z.of_nat (length p)) agentMaxMsglen
           \/ e = ErrEmptyMessage
           \/ (e = ErrNotConnected /\ sharedMem c = 0)))
      \/ (sharedMem c <> 0
          /\ (exists r2 : list byte, view w1 = Some r2)
          /\ (e = ErrRefused
              \/ (exists cause : error, e = ErrSendFailed cause)
              \/ (exists size : Z, e = ErrResponseTooLarge size agentMaxMsglen)))).
Proof.
  intros HW.
  destruct (Write_error_cases ag c c1 w w1 p n e HW)
    as (Hn & Hc & [(He & _ & Hw) | [(He & _ & Hw) | [(He & _ & Hm & Hw) | H]]]).
  - subst. repeat split. left. split; [reflexivity|]. left. reflexivity.
  - subst. repeat split. left. split; [reflexivity|]. right. left. reflexivity.
  - subst. repeat split. left. split; [reflexivity|]. right. right. split; [reflexivity|exact Hm].
  - destruct H as (_ & Hmem & r & r2 & result & err & _ & _ & Hw & Hcase).
    subst w1. split; [exact Hn|]. split; [exact Hc|]. split; [reflexivity|].
    right. split; [exact Hmem|]. split; [exists r2; reflexivity|].
    destruct Hcase as [(_ & _ & He) | [(_ & cause & _ & He) | (_ & L & _ & _ & He)]].
    + left. exact He.
    + right. left. exists cause. exact He.
    + right. right. eexists. exact He.
Qed.

Lemma Write_errors_witness :
  0%nat = 0%nat /\ Demo.conn = Demo.conn
  /\ fileOpen (mkShared (Some (Demo.ping ++ skipn 4 freshView)) true) = fileOpen Demo.shared
  /\ ((mkShared (Some (Demo.ping ++ skipn 4 freshView)) true = Demo.shared
       /\ (ErrRefused = ErrRequestTooLarge (Z.of_nat (length Demo.ping)) agentMaxMsglen
           \/ ErrRefused = ErrEmptyMessage
           \/ (ErrRefused = ErrNotConnected /\ sharedMem Demo.conn = 0)))
      \/ (sharedMem Demo.conn <> 0
          /\ (exists r2 : list byte,
                view (mkShared (Some (Demo.ping ++ skipn 4 freshView)) true) = Some r2)
          /\ (ErrRefused = ErrRefused
              \/ (exists cause : error, ErrRefused = ErrSendFailed cause)
              \/ (exists size : Z, ErrRefused = ErrResponseTooLarge size agentMaxMsglen)))).
Proof.
  apply (Write_errors (Demo.agent 0 0 []) Demo.conn Demo.conn Demo.shared
                      (mkShared (Some (Demo.ping ++ skipn 4 freshView)) true)
                      Demo.ping 0 ErrRefused).
  vm_compute. reflexivity.
Defined.

(** X16. The size a response-too-large error reports is computed in 32
    bits: it is the declared length plus 4 when that is below 2^32, and
    otherwise wraps to a number below 4, less than the limit it is said
    to exceed. *)
Theorem Write_response_size (ag : Agent) (c c1 : Conn) (w w1 : Shared) (p : list byte)
        (n : nat) (size limit : Z) :
  Write ag c w p = Ret (n, Some (ErrResponseTooLarge size limit), c1, w1) ->
  limit = agentMaxMsglen
  /\ exists (r2 : list byte) (L : Z),
       view w1 = Some r2 /\ Uint32 r2 = Some L
       /\ agentMaxMsglen - 4 < L < 2 ^ 32
       /\ ((L < 2 ^ 32 - 4 /\ size = L + 4 /\ size > agentMaxMsglen)
           \/ (2 ^ 32 - 4 <= L /\ size = L + 4 - 2 ^ 32 /\ 0 <= size < 4)).
Proof.
  intros HW.
  destruct (Write_error_cases ag c c1 w w1 p n _ HW)
    as (_ & _ & [(He & _) | [(He & _) | [(He & _) | H]]]); try discriminate.
  destruct H as (_ & _ & r & r2 & result & err & _ & _ & Hw & Hcase).
  destruct Hcase as [(_ & _ & He) | [(_ & cause & _ & He) | (_ & L & HL & Hbig & He)]];
    try discriminate.
  injection He as -> ->. split; [reflexivity|].
  exists r2, L. subst w1. split; [reflexivity|]. split; [exact HL|].
  pose proof (proj1 (proj2 Uint32_value) r2 L HL) as Hrange.
  split; [lia|].
  destruct (Z.lt_ge_cases L (2 ^ 32 - 4)) as [Hlt|Hge].
  - left. rewrite Z.mod_small by lia. lia.
  - right. split; [lia|].
    replace (L + 4) with (L + 4 - 2 ^ 32 + 1 * 2 ^ 32) by ring.
    rewrite Z_mod_plus_full, Z.mod_small by lia. lia.
Qed.

Lemma Write_response_size_witness :
  agentMaxMsglen = agentMaxMsglen
  /\ exists (r2 : list byte) (L : Z),
       view (mkShared (Some (Demo.wrapping ++ skipn 4 freshView)) true) = Some r2
       /\ Uint32 r2 = Some L
       /\ agentMaxMsglen - 4 < L < 2 ^ 32
       /\ ((L < 2 ^ 32 - 4 /\ 3 = L + 4 /\ 3 > agentMaxMsglen)
           \/ (2 ^ 32 - 4 <= L /\ 3 = L + 4 - 2 ^ 32 /\ 0 <= 3 < 4)).
Proof.
  apply (Write_response_size (Demo.agent 1 0 Demo.wrapping) Demo.conn Demo.conn
                             Demo.shared
                             (mkShared (Some (Demo.wrapping ++ skipn 4 freshView)) true)
                             Demo.ping 0 3 agentMaxMsglen).
  vm_compute. reflexivity.
Defined.

(** ** What stays true of the pending replies *)

Lemma Write_nil_room (ag : Agent) (c c1 : Conn) (w w1 : Shared) (p : list byte)
      (n : nat) :
  Write ag c w p = Ret (n, None, c1, w1) ->
  (length (Chan.queue (data c)) < Chan.cap (data c))%nat.
Proof.
  intros HW.
  destruct (Write_nil ag c c1 w w1 p n HW)
    as (r & r2 & result & L & err & Hsize & Hmu & Hmem & Hopen & Hview & Hle
        & Hsend & Hres & HL & HLr & Hlen & _).
  rewrite (Write_answered ag c w p r r2 result L err) in HW by (assumption || lia).
  unfold Chan.send in HW. rewrite Hopen in HW.
  destruct (Nat.ltb_spec (length (Chan.queue (data c))) (Chan.cap (data c)));
    [assumption | discriminate].
Qed.

Lemma well_queued_Read (c c1 : Conn) (p p1 : list byte) (n : nat)
      (err : option error) :
  well_queued c -> Read c p = Ret (n, err, p1, c1) -> well_queued c1.
Proof.
  intros (Hq & Hb & Hcap) HR.
  destruct (Read_cases c c1 p p1 n err HR) as [H|[H|[H|[H|H]]]].
  - destruct H as (_ & _ & _ & -> & _). repeat split; assumption.
  - destruct H as (_ & _ & _ & -> & _). repeat split; assumption.
  - destruct H as (_ & _ & _ & -> & _). split; [exact Hq|]. split; [left; reflexivity|exact Hcap].
  - destruct H as (_ & _ & _ & _ & v & q & Eq & _ & _ & ->).
    rewrite Eq in Hq, Hcap. inversion Hq as [|x l Hv Hrest]; subst.
    split; [exact Hrest|]. split.
    + right. exists (firstn n v). cbn [buf set_buf]. rewrite firstn_skipn. exact Hv.
    + cbn in *. lia.
  - destruct H as (_ & _ & _ & Hne & _ & _ & ->).
    split; [exact Hq|]. split; [|exact Hcap].
    destruct Hb as [E | (pre & Hpre)]; [contradiction|].
    right. exists (pre ++ firstn n (buf c)). cbn [buf set_buf].
    rewrite <- app_assoc, firstn_skipn. exact Hpre.
Qed.

Lemma well_queued_Write (ag : Agent) (c c1 : Conn) (w w1 : Shared) (p : list byte)
      (n : nat) (err : option error) :
  well_queued c -> Write ag c w p = Ret (n, err, c1, w1) -> well_queued c1.
Proof.
  intros (Hq & Hb & Hcap) HW.
  destruct err as [e|].
  - destruct (Write_error_cases ag c c1 w w1 p n e HW) as (_ & -> & _).
    repeat split; assumption.
  - pose proof (Write_nil_room ag c c1 w w1 p n HW) as Hroom.
    destruct (Write_nil ag c c1 w w1 p n HW)
      as (r & r2 & result & L & e & _ & _ & _ & _ & _ & _ & _ & _ & HL & HLr & Hlen
          & _ & _ & ->).
    split; [|split; [exact Hb|]].
    + cbn [data set_data Chan.queue]. apply Forall_app. split; [exact Hq|].
      constructor; [|constructor].
      exists L. split; [rewrite Uint32_firstn by lia; exact HL|].
      split; [lia|]. rewrite length_firstn. lia.
    + cbn [data set_data Chan.queue Chan.cap]. rewrite length_app.
      cbn [length]. lia.
Qed.

Lemma well_queued_Close (eu ec : option Z) (c c1 : Conn) (w w1 : Shared)
      (err : option error) :
  well_queued c -> Close eu ec c w = Ret (err, c1, w1) -> well_queued c1.
Proof.
  intros Hwq. unfold Close, Close_enter, Close_release, Lock, Chan.close.
  destruct (sharedMem c =? 0).
  { intros H. injection H as <- <- <-. exact Hwq. }
  destruct (Mutex c); [discriminate|]. cbn [data set_Mutex].
  destruct (Chan.closed (data c)); [discriminate|].
  destruct eu, ec; intros H; injection H as <- <- <-; exact Hwq.
Qed.

Lemma Write_cap (ag : Agent) (c c1 : Conn) (w w1 : Shared) (p : list byte)
      (n : nat) (err : option error) :
  Write ag c w p = Ret (n, err, c1, w1) -> Chan.cap (data c1) = Chan.cap (data c).
Proof.
  intros HW. destruct err as [e|].
  - destruct (Write_error_cases ag c c1 w w1 p n e HW) as (_ & -> & _). reflexivity.
  - destruct (Write_nil ag c c1 w w1 p n HW)
      as (r & r2 & result & L & e & _ & _ & _ & _ & _ & _ & _ & _ & _ & _ & _
          & _ & _ & ->).
    reflexivity.
Qed.

Lemma Close_cap (eu ec : option Z) (c c1 : Conn) (w w1 : Shared) (err : option error) :
  Close eu ec c w = Ret (err, c1, w1) -> Chan.cap (data c1) = Chan.cap (data c).
Proof.
  unfold Close, Close_enter, Close_release, Lock, Chan.close.
  destruct (sharedMem c =? 0).
  { intros H. injection H as <- <- <-. reflexivity. }
  destruct (Mutex c); [discriminate|]. cbn [data set_Mutex].
  destruct (Chan.closed (data c)); [discriminate|].
  destruct eu, ec; intros H; injection H as <- <- <-; reflexivity.
Qed.

Lemma well_queued_calls (ks : list Call) :
  forall (c c1 : Conn) (w w1 : Shared),
    well_queued c -> calls ks c w = Some (c1, w1) ->
    well_queued c1 /\ Chan.cap (data c1) = Chan.cap (data c).
Proof.
  induction ks as [|k ks IH]; intros c c1 w w1 Hwq; simpl.
  - intros H. injection H as <- <-. split; [exact Hwq | reflexivity].
  - destruct (call k c w) as [[[err c2] w2]|] eqn:Hcall; [|discriminate].
    intros Hrest.
    assert (Hstep : well_queued c2 /\ Chan.cap (data c2) = Chan.cap (data c)).
    { destruct k as [p | ag p | eu ec]; simpl in Hcall.
      - destruct (Read c p) as [[[[n e] p1] c3]| | |] eqn:HR; try discriminate.
        injection Hcall as <- <- <-. split.
        + exact (well_queued_Read c c3 p p1 n e Hwq HR).
        + apply (Read_frame c c3 p p1 n e HR).
      - destruct (Write ag c w p) as [[[[n e] c3] w3]| | |] eqn:HW; try discriminate.
        injection Hcall as <- <- <-. split.
        + exact (well_queued_Write ag c c3 w w3 p n e Hwq HW).
        + exact (Write_cap ag c c3 w w3 p n e HW).
      - destruct (Close eu ec c w) as [[[e c3] w3]| | |] eqn:HC; try discriminate.
        injection Hcall as <- <- <-. split.
        + exact (well_queued_Close eu ec c c3 w w3 e Hwq HC).
        + exact (Close_cap eu ec c c3 w w3 e HC). }
    destruct Hstep as [Hwq2 Hcap2].
    destruct (IH c2 c1 w2 w1 Hwq2 Hrest) as [Hwq1 Hcap1].
    split; [exact Hwq1 | congruence].
Qed.

(** X17. On a connection obtained from [NewPageantConn], after any
    calls of [Read], [Write] and [Close] that returned: every chunk on
    the channel is a framed reply (a 4-byte prefix [L <= 8188] and
    exactly [L] bytes, so at most 8192 bytes), [c.buf] is empty or the
    tail of one, and the channel holds at most 10 chunks. *)
Theorem pending_invariant
        (os : Sys) (pr pr1 : Proc) (c c1 : Conn) (w w1 : Shared)
        (err : option error) (ks : list Call) :
  NewPageantConn os pr = (Some (c, w), err, pr1) ->
  calls ks c w = Some (c1, w1) ->
  Forall framed (Chan.queue (data c1))
  /\ (buf c1 = [] \/ exists pre : list byte, framed (pre ++ buf c1))
  /\ (length (Chan.queue (data c1)) <= 10)%nat.
Proof.
  intros Hnew Hcalls.
  destruct (NewPageantConn_state os pr pr1 c w err Hnew) as (_ & Hc & _).
  assert (Hwq : well_queued c).
  { rewrite Hc. split; [constructor|]. split; [left; reflexivity|]. cbn. lia. }
  destruct (well_queued_calls ks c c1 w w1 Hwq Hcalls) as [(Hq & Hb & Hcap) Hsame].
  split; [exact Hq|]. split; [exact Hb|].
  rewrite Hsame, Hc in Hcap. exact Hcap.
Qed.

Lemma pending_invariant_witness :
  Forall framed (Chan.queue (data (fst Demo.answered)))
  /\ (buf (fst Demo.answered) = []
      \/ exists pre : list byte, framed (pre ++ buf (fst Demo.answered)))
  /\ (length (Chan.queue (data (fst Demo.answered))) <= 10)%nat.
Proof.
  apply (pending_invariant Demo.sys Demo.proc (mkProc 4242 1) Demo.conn
           (fst Demo.answered) Demo.shared (snd Demo.answered) None
           [CallWrite (Demo.agent 1 0 Demo.pong) Demo.ping]).
  - reflexivity.
  - vm_compute. reflexivity.
Defined.

(** ** Staying inside the mapping *)

Lemma sendMessage_region (ag : Agent) (c : Conn) (payload r : list byte) :
  snd (sendMessage ag c payload r)
  = snd (ag (window c) wmCopyData 0
            (mkCopyData agentCopydataID (Z.of_nat (length payload)) payload) r).
Proof.
  unfold sendMessage.
  destruct (ag _ _ _ _ _) as [[result err] r']. destruct (err =? noError); reflexivity.
Qed.

(** X18. With the view mapped at its 8192 bytes and an agent that
    leaves the mapping its size, no [Write] reads or writes outside the
    mapping, and a [Write] that returns leaves the view mapped at the
    same size. *)
Theorem Write_in_bounds (ag : Agent) (c : Conn) (w : Shared) (p r : list byte) :
  view w = Some r ->
  Z.of_nat (length r) = agentMaxMsglen ->
  (forall (win msg wp : Z) (cds : copyData) (r0 : list byte),
      length r0 = length r -> length (snd (ag win msg wp cds r0)) = length r0) ->
  Write ag c w p <> Faults
  /\ forall (n : nat) (err : option error) (c1 : Conn) (w1 : Shared),
       Write ag c w p = Ret (n, err, c1, w1) ->
       exists r1 : list byte, view w1 = Some r1 /\ length r1 = length r.
Proof.
  intros Hview Hlen Hag. unfold agentMaxMsglen in Hlen.
  unfold Write.
  destruct (Z.gtb_spec (Z.of_nat (length p)) agentMaxMsglen) as [Hbig|Hhi].
  { split; [discriminate|]. intros n err c1 w1 H. injection H as _ _ _ <-.
    exists r. split; [exact Hview | reflexivity]. }
  destruct (Nat.eqb_spec (length p) 0) as [Hnil|Hlo].
  { split; [discriminate|]. intros n err c1 w1 H. injection H as _ _ _ <-.
    exists r. split; [exact Hview | reflexivity]. }
  unfold agentMaxMsglen in *.
  destruct (Lock c) as [c2|]; [|split; [discriminate | intros; discriminate]].
  destruct (sharedMem c2 =? 0).
  { split; [discriminate|]. intros n err c1 w1 H. injection H as _ _ _ <-.
    exists r. split; [exact Hview | reflexivity]. }
  rewrite Hview, (store_fits r p) by lia.
  pose proof (sendMessage_region ag c2 (namePayload (mapName c2))
                                 (p ++ skipn (length p) r)) as Hreg.
  destruct (sendMessage ag c2 (namePayload (mapName c2)) (p ++ skipn (length p) r))
    as [[result err] r2].
  cbn [snd] in Hreg.
  assert (Hr2 : length r2 = length r).
  { rewrite Hreg, Hag; rewrite length_app, length_skipn; lia. }
  cbv zeta.
  destruct (result =? 0).
  { destruct err; (split; [discriminate|]); intros n e0 c1 w1 H;
      injection H as _ _ _ <-; exists r2; (split; [reflexivity | exact Hr2]). }
  rewrite (toSlice_fits r2 4) by lia. cbn [option_map].
  destruct (Uint32 (firstn 4 r2)) as [L|] eqn:HL.
  2:{ exfalso. apply (proj1 (proj2 (proj2 Uint32_value) (firstn 4 r2))) in HL.
      rewrite length_firstn in HL. lia. }
  pose proof (Uint32_nonneg _ _ HL) as HL0.
  destruct (Z.gtb_spec L (8192 - 4)) as [Hover|Hfit].
  { split; [discriminate|]. intros n e0 c1 w1 H.
    injection H as _ _ _ <-. exists r2. split; [reflexivity | exact Hr2]. }
  rewrite (toSlice_fits r2 (4 + Z.to_nat L)) by lia.
  destruct (Chan.send _ _); (split; [discriminate|]); intros n e0 c1 w1 H;
    try discriminate.
  injection H as _ _ _ <-. exists r2. split; [reflexivity | exact Hr2].
Qed.

Lemma Write_in_bounds_witness :
  Write (Demo.agent 1 0 Demo.pong) Demo.conn Demo.shared Demo.ping <> Faults
  /\ forall (n : nat) (err : option error) (c1 : Conn) (w1 : Shared),
       Write (Demo.agent 1 0 Demo.pong) Demo.conn Demo.shared Demo.ping
       = Ret (n, err, c1, w1) ->
       exists r1 : list byte, view w1 = Some r1 /\ length r1 = length freshView.
Proof.
  apply (Write_in_bounds (Demo.agent 1 0 Demo.pong) Demo.conn Demo.shared
                         Demo.ping freshView).
  - reflexivity.
  - vm_compute. reflexivity.
  - intros win msg wp cds r0 Hr0. unfold Demo.agent. cbn [snd].
    rewrite length_app, length_skipn, Hr0.
    unfold freshView. rewrite repeat_length. vm_compute. reflexivity.
Defined.

(** ** The characters of a region name *)

Lemma list_ascii_app (s t : string) :
  list_ascii_of_string (s ++ t) = list_ascii_of_string s ++ list_ascii_of_string t.
Proof.
  induction s as [|ch s IH]; simpl; [reflexivity|]. rewrite IH. reflexivity.
Qed.

Lemma list_ascii_length (s : string) :
  length (list_ascii_of_string s) = String.length s.
Proof.
  induction s as [|ch s IH]; simpl; [reflexivity|]. rewrite IH. reflexivity.
Qed.

Lemma hex_uint_chars (d : Hexadecimal.uint) :
  Forall (fun ch => In ch hexChars) (list_ascii_of_string (NilEmpty.string_of_uint d)).
Proof.
  induction d; cbn [NilEmpty.string_of_uint list_ascii_of_string];
    constructor; try assumption;
    unfold hexChars; cbn [list_ascii_of_string];
    repeat (first [left; reflexivity | right]).
Qed.

Lemma fmt_x_chars (z : Z) :
  Forall (fun ch => In ch hexChars) (list_ascii_of_string (fmt_x z)).
Proof.
  assert (Hu : forall d : Hexadecimal.uint,
             Forall (fun ch => In ch hexChars)
                    (list_ascii_of_string (NilZero.string_of_uint d))).
  { intros d. unfold NilZero.string_of_uint.
    destruct d; try apply hex_uint_chars.
    constructor; [|constructor]. unfold hexChars. cbn [list_ascii_of_string].
    repeat (first [left; reflexivity | right]). }
  unfold fmt_x, NilZero.string_of_int.
  destruct (Z.to_hex_int z) as [d|d]; [apply Hu|].
  cbn [list_ascii_of_string]. constructor; [|apply Hu].
  left. reflexivity.
Qed.

(** X19. A region name is written with the letters of
    [PageantRequest_] and of hexadecimal numbers only; none of its
    bytes is NUL, so the payload sent to the agent, the name followed
    by one NUL byte, has its only NUL at the end. *)
Theorem regionName_chars (pid id : Z) :
  Forall (fun ch => In ch (list_ascii_of_string "PageantRequest_" ++ hexChars))
         (list_ascii_of_string (regionName pid id))
  /\ ~ In x00 (list_byte_of_string (regionName pid id))
  /\ namePayload (regionName pid id)
     = list_byte_of_string (regionName pid id) ++ [x00]
  /\ length (namePayload (regionName pid id))
     = S (String.length (regionName pid id)).
Proof.
  assert (Hchars : Forall (fun ch => In ch (list_ascii_of_string "PageantRequest_"
                                             ++ hexChars))
                          (list_ascii_of_string (regionName pid id))).
  { assert (Hhex : forall z : Z,
               Forall (fun ch => In ch (list_ascii_of_string "PageantRequest_"
                                        ++ hexChars))
                      (list_ascii_of_string (fmt_x z))).
    { intros z. eapply Forall_impl; [|apply fmt_x_chars].
      intros ch Hin. apply in_or_app. right. exact Hin. }
    unfold regionName. rewrite !list_ascii_app.
    apply Forall_app. split.
    { apply Forall_forall. intros ch Hin. apply in_or_app. left. exact Hin. }
    apply Forall_app. split; [apply Hhex|].
    apply Forall_app. split; [|apply Hhex].
    constructor; [|constructor]. apply in_or_app. left.
    cbn [list_ascii_of_string]. repeat (first [left; reflexivity | right]). }
  split; [exact Hchars|].
  split; [|split].
  - unfold list_byte_of_string. intros Hin.
    apply in_map_iff in Hin. destruct Hin as (ch & Hz & Hin).
    rewrite Forall_forall in Hchars. specialize (Hchars ch Hin).
    unfold hexChars in Hchars. cbn [list_ascii_of_string app] in Hchars.
    repeat (destruct Hchars as [<-|Hchars]; [discriminate Hz|]).
    contradiction.
  - apply namePayload_spec.
  - rewrite namePayload_spec, length_app. cbn [length].
    unfold list_byte_of_string. rewrite length_map.
    rewrite Nat.add_1_r. f_equal. apply list_ascii_length.
Qed.

Lemma underscore_split (s1 : string) :
  forall s2 t1 t2 : string,
    ~ In "_"%char (list_ascii_of_string s1) ->
    ~ In "_"%char (list_ascii_of_string s2) ->
    (s1 ++ String "_" t1 = s2 ++ String "_" t2)%string ->
    s1 = s2 /\ t1 = t2.
Proof.
  induction s1 as [|a s1 IH]; intros [|b s2] t1 t2 H1 H2 E; simpl in *.
  - injection E as ->. split; reflexivity.
  - injection E as <- _. exfalso. apply H2. left. reflexivity.
  - injection E as -> _. exfalso. apply H1. left. reflexivity.
  - injection E as -> E.
    destruct (IH s2 t1 t2) as [-> ->]; auto.
Qed.

Lemma fmt_x_no_underscore (z : Z) : ~ In "_"%char (list_ascii_of_string (fmt_x z)).
Proof.
  intros Hin. pose proof (fmt_x_chars z) as H.
  rewrite Forall_forall in H. specialize (H _ Hin).
  unfold hexChars in H. cbn [list_ascii_of_string] in H.
  repeat (destruct H as [H|H]; [discriminate H|]).
  contradiction.
Qed.

(** X20. The region name determines both numbers it is made of: two
    names are equal only if the process ids are equal and the counter
    values are equal, so connections of different processes never get
    the same name. *)
Theorem regionName_inj_both (pid1 id1 pid2 id2 : Z) :
  regionName pid1 id1 = regionName pid2 id2 -> pid1 = pid2 /\ id1 = id2.
Proof.
  unfold regionName. intros H.
  apply append_inj_l in H.
  destruct (underscore_split (fmt_x pid1) (fmt_x pid2) (fmt_x id1) (fmt_x id2)
              (fmt_x_no_underscore pid1) (fmt_x_no_underscore pid2) H)
    as [Hp Hi].
  split; apply fmt_x_inj; assumption.
Qed.

Lemma regionName_inj_both_witness : 4242 = 4242 /\ 1 = 1.
Proof.
  apply (regionName_inj_both 4242 1 4242 1). reflexivity.
Defined.

(** ** The pipe of the other agent *)

Lemma prefix_app (pre s : string) : String.prefix pre (pre ++ s) = true.
Proof.
  induction pre as [|a pre IH]; simpl; [destruct s; reflexivity|].
  destruct (ascii_dec a a) as [_|F]; [exact IH | contradiction].
Qed.

(** X21. The pipe [NewConn] dials always starts with [\\.\pipe\]: a
    value of SSH_AUTH_SOCK that starts with it is used as it is, any
    other value has it put in front, and an unset or empty variable
    gives [\\.\pipe\openssh-ssh-agent]; making the path out of a path
    already made changes nothing. *)
Theorem sockPath_pipe (env : string) :
  HasPrefix (sockPath env) PIPE = true
  /\ (HasPrefix env PIPE = true -> sockPath env = env)
  /\ (env <> EmptyString -> HasPrefix env PIPE = false ->
      sockPath env = (PIPE ++ env)%string)
  /\ sockPath EmptyString = (PIPE ++ sshAuthPipe)%string
  /\ sockPath (sockPath env) = sockPath env.
Proof.
  assert (Hkeep : forall s : string, HasPrefix s PIPE = true -> sockPath s = s).
  { intros s Hs. unfold sockPath.
    destruct (String.eqb_spec s EmptyString) as [->|_]; [discriminate Hs|].
    rewrite Hs. reflexivity. }
  assert (Hpre : HasPrefix (sockPath env) PIPE = true).
  { unfold sockPath.
    destruct (HasPrefix (if String.eqb env EmptyString then sshAuthPipe else env) PIPE)
      eqn:Hp; cbn [negb]; [exact Hp|].
    unfold HasPrefix. apply prefix_app. }
  split; [exact Hpre|]. split; [apply Hkeep|]. split; [|split].
  - intros Hne Hno. unfold sockPath.
    destruct (String.eqb_spec env EmptyString) as [E|_]; [contradiction|].
    rewrite Hno. reflexivity.
  - reflexivity.
  - apply Hkeep. exact Hpre.
Qed.

(** X22. [NewConn] decides by its own window lookup alone.  When that
    finds a window the result is that of [NewPageantConn], also when
    the window has gone by the time [NewPageantConn] looks for it:
    the error is then pageant-not-available and the pipe is not tried.
    When it finds none, the pipe is dialled at the path made from
    SSH_AUTH_SOCK and the counter of region names is left alone. *)
Theorem NewConn_dispatch {D : Type} (DialPipe : string -> D) (found : Z * Z)
        (os : Sys) (env : string) (pr : Proc) :
  (fst found <> 0 ->
   NewConn DialPipe found os env pr
   = (inl (fst (NewPageantConn os pr)), snd (NewPageantConn os pr)))
  /\ (fst found <> 0 -> fst (findWindow1 os) = 0 ->
      NewConn DialPipe found os env pr = (inl (None, Some ErrNotAvailable), pr))
  /\ (fst found = 0 ->
      NewConn DialPipe found os env pr = (inr (DialPipe (sockPath env)), pr)).
Proof.
  assert (Hfound : fst found <> 0 ->
                   NewConn DialPipe found os env pr
                   = (inl (fst (NewPageantConn os pr)), snd (NewPageantConn os pr))).
  { intros Hw. unfold NewConn. rewrite (PageantWindow_ok found Hw).
    destruct (NewPageantConn os pr) as [[res err] pr1]. reflexivity. }
  split; [exact Hfound|]. split.
  - intros Hw H1. rewrite (Hfound Hw). unfold NewPageantConn.
    destruct (PageantAvailable (findWindow1 os)) eqn:Ha; [|reflexivity].
    apply PageantAvailable_iff in Ha. contradiction.
  - intros Hw. unfold NewConn.
    destruct (PageantWindow_missing found Hw) as [err ->]. reflexivity.
Qed.

Lemma NewConn_dispatch_witness :
  NewConn (fun path : string => path) (0x30a2e, 0) Demo.sys "agent.sock" Demo.proc
  = (inl (Some (Demo.conn, Demo.shared), None), mkProc 4242 1)
  /\ NewConn (fun path : string => path) (0x30a2e, 0)
             (mkSys (0, 0) (0x30a2e, 0) (0x1f4, None) (0x26a0000, 0))
             "agent.sock" Demo.proc
     = (inl (None, Some ErrNotAvailable), Demo.proc)
  /\ NewConn (fun path : string => path) (0, 1400) Demo.sys "agent.sock" Demo.proc
     = (inr (PIPE ++ "agent.sock")%string, Demo.proc).
Proof.
  split; [|split].
  - apply (proj1 (NewConn_dispatch (fun path : string => path) (0x30a2e, 0)
                    Demo.sys "agent.sock" Demo.proc)).
    discriminate.
  - apply (proj1 (proj2 (NewConn_dispatch (fun path : string => path) (0x30a2e, 0)
                           (mkSys (0, 0) (0x30a2e, 0) (0x1f4, None) (0x26a0000, 0))
                           "agent.sock" Demo.proc))).
    + discriminate.
    + reflexivity.
  - apply (proj2 (proj2 (NewConn_dispatch (fun path : string => path) (0, 1400)
                           Demo.sys "agent.sock" Demo.proc))).
    reflexivity.
Defined.

(** ** The mutex *)

Lemma Read_ignores_Mutex (c : Conn) (p : list byte) (m : bool) :
  Read (set_Mutex c m) p
  = match Read c p with
    | Ret (n, err, p1, c1) => Ret (n, err, p1, set_Mutex c1 m)
    | Panics e => Panics e
    | Blocks => Blocks
    | Faults => Faults
    end.
Proof.
  unfold Read, Read_recv, Read_copy, Chan.recv.
  cbn [eof sharedMem buf data set_Mutex set_buf set_data set_eof].
  destruct (eof c); [reflexivity|].
  destruct (sharedMem c =? 0); [reflexivity|].
  destruct (length (buf c) =? 0)%nat.
  - destruct (Chan.queue (data c)) as [|v q].
    + destruct (Chan.closed (data c)); reflexivity.
    + destruct (copy p v). reflexivity.
  - destruct (copy p (buf c)). reflexivity.
Qed.

(** X23. [Write] and [Close] take the mutex only after their first
    test: with the mutex held, a [Write] of valid size and a [Close] of
    a connected connection wait, while a [Write] of bad size and a
    [Close] of a connection with [sharedMem] 0 return at once.  Each
    returns with the mutex as it found it.  [Read] never takes the
    mutex: held or free, it does the same. *)
Theorem Mutex_discipline (c : Conn) (w : Shared) :
  (Mutex c = true ->
   (forall (ag : Agent) (p : list byte),
       0 < Z.of_nat (length p) <= agentMaxMsglen -> Write ag c w p = Blocks)
   /\ (forall eu ec : option Z, sharedMem c <> 0 -> Close eu ec c w = Blocks)
   /\ (forall eu ec : option Z, sharedMem c = 0 -> Close eu ec c w = Ret (None, c, w)))
  /\ (forall (ag : Agent) (p : list byte) (n : nat) (err : option error)
             (c1 : Conn) (w1 : Shared),
         Write ag c w p = Ret (n, err, c1, w1) -> Mutex c1 = Mutex c)
  /\ (forall (eu ec : option Z) (err : option error) (c1 : Conn) (w1 : Shared),
         Close eu ec c w = Ret (err, c1, w1) -> Mutex c1 = Mutex c)
  /\ (forall (p : list byte) (m : bool),
         Read (set_Mutex c m) p
         = match Read c p with
           | Ret (n, err, p1, c1) => Ret (n, err, p1, set_Mutex c1 m)
           | Panics e => Panics e
           | Blocks => Blocks
           | Faults => Faults
           end).
Proof.
  split; [|split; [|split]].
  - intros Hheld. split; [|split].
    + intros ag p Hsize. rewrite Write_sized by assumption.
      unfold Lock. rewrite Hheld. reflexivity.
    + intros eu ec Hmem. unfold Close, Close_enter, Lock.
      destruct (Z.eqb_spec (sharedMem c) 0) as [E|_]; [contradiction|].
      rewrite Hheld. reflexivity.
    + intros eu ec Hmem. unfold Close, Close_enter. rewrite Hmem. reflexivity.
  - intros ag p n err c1 w1 HW. destruct err as [e|].
    + destruct (Write_error_cases ag c c1 w w1 p n e HW) as (_ & -> & _). reflexivity.
    + destruct (Write_nil ag c c1 w w1 p n HW)
        as (r & r2 & result & L & e & _ & _ & _ & _ & _ & _ & _ & _ & _ & _ & _
            & _ & _ & ->).
      reflexivity.
  - intros eu ec err c1 w1. unfold Close, Close_enter, Close_release, Lock, Chan.close.
    destruct (sharedMem c =? 0).
    { intros H. injection H as <- <- <-. reflexivity. }
    destruct (Mutex c) eqn:Hmu; [discriminate|]. cbn [data set_Mutex].
    destruct (Chan.closed (data c)); [discriminate|].
    destruct eu, ec; intros H; injection H as <- <- <-; reflexivity.
  - intros p m. apply Read_ignores_Mutex.
Qed.

Lemma Mutex_discipline_witness :
  Write (Demo.agent 1 0 Demo.pong) (set_Mutex Demo.conn true) Demo.shared Demo.ping
  = Blocks
  /\ Close None None (set_Mutex Demo.conn true) Demo.shared = Blocks
  /\ Mutex (fst Demo.answered) = Mutex Demo.conn
  /\ Mutex (fst Demo.closed) = Mutex (fst Demo.answered).
Proof.
  pose proof (Mutex_discipline (set_Mutex Demo.conn true) Demo.shared) as Hheld.
  pose proof (Mutex_discipline Demo.conn Demo.shared) as Hfree.
  pose proof (Mutex_discipline (fst Demo.answered) (snd Demo.answered)) as Hans.
  split; [|split; [|split]].
  - apply (proj1 (proj1 Hheld eq_refl)).
    vm_compute. split; [reflexivity | discriminate].
  - apply (proj1 (proj2 (proj1 Hheld eq_refl))). discriminate.
  - apply (proj1 (proj2 Hfree) (Demo.agent 1 0 Demo.pong) Demo.ping 4%nat None
                 (fst Demo.answered) (snd Demo.answered)).
    vm_compute. reflexivity.
  - apply (proj1 (proj2 (proj2 Hans)) None None None (fst Demo.closed) (snd Demo.closed)).
    vm_compute. reflexivity.
Defined.

Lemma Read_EOF_iff_witness :
  0%nat = 0%nat /\ Demo.ping = Demo.ping
  /\ eof (set_eof (set_buf (set_data Demo.conn (Chan.mk [] true 10)) []) true) = true
  /\ forall p' : list byte,
       Read (set_eof (set_buf (set_data Demo.conn (Chan.mk [] true 10)) []) true) p'
       = Ret (0%nat, Some EOF, p',
              set_eof (set_buf (set_data Demo.conn (Chan.mk [] true 10)) []) true).
Proof.
  apply (proj2 (Read_EOF_iff (set_data Demo.conn (Chan.mk [] true 10)) Demo.ping)
               0%nat Demo.ping
               (set_eof (set_buf (set_data Demo.conn (Chan.mk [] true 10)) []) true)).
  reflexivity.
Defined.

Lemma Uint32_value_witness : 0 <= 4 < 2 ^ 32.
Proof.
  apply (proj1 (proj2 Uint32_value) Demo.pong 4). reflexivity.
Defined.

Lemma sockPath_pipe_witness :
  sockPath (PIPE ++ "pageant.1234") = (PIPE ++ "pageant.1234")%string
  /\ sockPath "agent.sock" = (PIPE ++ "agent.sock")%string.
Proof.
  split.
  - apply (proj1 (proj2 (sockPath_pipe (PIPE ++ "pageant.1234")))). reflexivity.
  - apply (proj1 (proj2 (proj2 (sockPath_pipe "agent.sock")))).
    + discriminate.
    + reflexivity.
Defined.
